(** * txtchecker: the concurrent TXT-record probing engine

    A shallow embedding of [txtchecker.py]: candidate generation, the
    resolver client, the match test, the probing functions over the shared
    run state, and the thread pool as an interleaving step machine. *)

From Stdlib Require Import ZArith Lia Ascii String.
From Stdlib.Strings Require Import Byte.
From stdpp Require Import base list numbers strings.

Open Scope Z_scope.

(** ** Python values

    A [str] is its sequence of Unicode code points; a [bytes] object is a
    sequence of bytes. *)

Definition str := list Z.
Definition bytes := list byte.

(** A Rocq string literal read as a [str], one code point per character. *)
Definition str_of (s : string) : str :=
  map (fun a => Z.of_N (N_of_ascii a)) (list_ascii_of_string s).

Definition bytes_of (s : string) : bytes := list_byte_of_string s.

(** [f"{a}{b}"] on two strings. *)
Definition fmt2 (a b : str) : str := a ++ b.

(** The exceptions that reach this program.  [dns.resolver.LifetimeTimeout]
    is a subclass of [dns.exception.Timeout] and is represented by [Timeout];
    [OtherError] stands for every exception class outside the four named in
    [fetch_txt_records] (for instance [dns.resolver.YXDOMAIN] or
    [dns.name.EmptyLabel]). *)
Inductive exn :=
| NoAnswer
| NXDOMAIN
| Timeout
| NoNameservers
| UnicodeDecodeError
| OtherError (name : string).

Inductive result (A : Type) :=
| Ok (a : A)
| Raise (e : exn).
Arguments Ok {A} a.
Arguments Raise {A} e.

Module Text.

(** [str.isspace] on one code point: the table of CPython's
    [_PyUnicode_IsWhitespace]. *)
Definition isspace (c : Z) : bool :=
  ((0x09 <=? c) && (c <=? 0x0D)) ||
  ((0x1C <=? c) && (c <=? 0x20)) ||
  (c =? 0x85) || (c =? 0xA0) || (c =? 0x1680) ||
  ((0x2000 <=? c) && (c <=? 0x200A)) ||
  (c =? 0x2028) || (c =? 0x2029) || (c =? 0x202F) ||
  (c =? 0x205F) || (c =? 0x3000).

Fixpoint lstrip (s : str) : str :=
  match s with
  | c :: s' => if isspace c then lstrip s' else s
  | [] => []
  end.

Definition rstrip (s : str) : str := reverse (lstrip (reverse s)).

(** [s.strip()] with no argument. *)
Definition strip (s : str) : str := rstrip (lstrip s).

(** The test of [check_txt]: [txt.strip() == txt_record_to_check]. *)
Definition txt_matches (txt target : str) : bool :=
  bool_decide (strip txt = target).

(** What the specification calls the trimmed value: [core] is [txt] with
    its leading and trailing whitespace removed. *)
Definition starts_with_space (s : str) : bool :=
  match s with c :: _ => isspace c | [] => false end.

Definition ends_with_space (s : str) : bool := starts_with_space (reverse s).

Definition Trimmed (txt core : str) : Prop :=
  exists l r : str,
    txt = l ++ core ++ r /\
    forallb isspace l = true /\ forallb isspace r = true /\
    starts_with_space core = false /\ ends_with_space core = false.

End Text.

(** ** UTF-8 decoding: [bytes.decode()] with its defaults (utf-8, strict) *)

Module Utf8.

Definition val (b : byte) : Z := Z.of_N (Byte.to_N b).

Definition in_range (lo hi : Z) (b : byte) : bool :=
  (lo <=? val b) && (val b <=? hi).

Definition cont (b : byte) : bool := in_range 0x80 0xBF b.

Definition low6 (b : byte) : Z := Z.land (val b) 0x3F.

(** One well-formed sequence at the head of the input (Unicode table
    3-7), with the rest of the input. *)
Definition decode1 (bs : bytes) : option (Z * bytes) :=
  match bs with
  | [] => None
  | b0 :: r0 =>
    if val b0 <? 0x80 then Some (val b0, r0)
    else if in_range 0xC2 0xDF b0 then
      match r0 with
      | b1 :: r1 =>
        if cont b1
        then Some (Z.lor (Z.shiftl (Z.land (val b0) 0x1F) 6) (low6 b1), r1)
        else None
      | _ => None
      end
    else if in_range 0xE0 0xEF b0 then
      match r0 with
      | b1 :: b2 :: r2 =>
        let lo := if val b0 =? 0xE0 then 0xA0 else 0x80 in
        let hi := if val b0 =? 0xED then 0x9F else 0xBF in
        if in_range lo hi b1 && cont b2
        then Some (Z.lor (Z.shiftl (Z.land (val b0) 0x0F) 12)
                     (Z.lor (Z.shiftl (low6 b1) 6) (low6 b2)), r2)
        else None
      | _ => None
      end
    else if in_range 0xF0 0xF4 b0 then
      match r0 with
      | b1 :: b2 :: b3 :: r3 =>
        let lo := if val b0 =? 0xF0 then 0x90 else 0x80 in
        let hi := if val b0 =? 0xF4 then 0x8F else 0xBF in
        if in_range lo hi b1 && cont b2 && cont b3
        then Some (Z.lor (Z.shiftl (Z.land (val b0) 0x07) 18)
                     (Z.lor (Z.shiftl (low6 b1) 12)
                        (Z.lor (Z.shiftl (low6 b2) 6) (low6 b3))), r3)
        else None
      | _ => None
      end
    else None
  end.

(** The input shrinks at every sequence, so its length bounds the number
    of sequences. *)
Fixpoint decode_fuel (fuel : nat) (bs : bytes) : result str :=
  match bs with
  | [] => Ok []
  | _ =>
    match fuel with
    | O => Raise UnicodeDecodeError
    | S fuel' =>
      match decode1 bs with
      | None => Raise UnicodeDecodeError
      | Some (c, rest) =>
        match decode_fuel fuel' rest with
        | Ok s => Ok (c :: s)
        | Raise e => Raise e
        end
      end
    end
  end.

Definition decode (bs : bytes) : result str :=
  decode_fuel (length bs) bs.

End Utf8.

(** ** Candidate generator *)

(** [generate_domains(word, tlds)]. *)
Definition generate_domains (word : str) (tlds : list str) : list str :=
  map (fun tld => fmt2 word tld) tlds.

(** The [random] module.  Its generator is a stream of raw draws and a
    position in it; a draw below [n] is a raw draw reduced into [0, n), so
    every outcome the library can produce is the outcome of some stream. *)
Module Random.

Record rng := { draws : nat -> Z; pos : nat }.

Definition randbelow (n : Z) (g : rng) : Z * rng :=
  (draws g (pos g) mod n, {| draws := draws g; pos := S (pos g) |}).

(** [random.randint(a, b)]: an integer in [a, b], both ends included. *)
Definition randint (a b : Z) (g : rng) : Z * rng :=
  let '(r, g') := randbelow (b - a + 1) g in (a + r, g').

(** [random.choices(population, k=k)]: [k] independent draws with
    replacement. *)
Fixpoint choices (population : str) (k : nat) (g : rng) : str * rng :=
  match k with
  | O => ([], g)
  | S k' =>
    let '(i, g1) := randbelow (Z.of_nat (length population)) g in
    let '(rest, g2) := choices population k' g1 in
    (nth (Z.to_nat i) population 0 :: rest, g2)
  end.

End Random.

(** [string.ascii_lowercase]. *)
Definition ascii_lowercase : str := str_of "abcdefghijklmnopqrstuvwxyz".

(** [generate_random_domain(tlds)]. *)
Definition generate_random_domain (tlds : list str) (g : Random.rng)
  : list str * Random.rng :=
  let '(len, g1) := Random.randint 3 8 g in
  let '(word, g2) := Random.choices ascii_lowercase (Z.to_nat len) g1 in
  (map (fun tld => fmt2 word tld) tlds, g2).

(** ** Resolver client *)

(** One resource record of an answer: [rdata.strings], its character-string
    segments. *)
Record rdata := { strings : list bytes }.

(** What [resolver.resolve(domain, 'TXT')] does for each domain: it returns
    the answer's records or raises. *)
Definition resolver := str -> result (list rdata).

(** The inner loops of [fetch_txt_records]: every segment of every record is
    decoded and appended to [txt_records] on its own. *)
Fixpoint decode_strings (segs : list bytes) (txt_records : list str)
  : result (list str) :=
  match segs with
  | [] => Ok txt_records
  | txt_string :: segs' =>
    match Utf8.decode txt_string with
    | Ok s => decode_strings segs' (txt_records ++ [s])
    | Raise e => Raise e
    end
  end.

Fixpoint decode_answers (answers : list rdata) (txt_records : list str)
  : result (list str) :=
  match answers with
  | [] => Ok txt_records
  | rd :: answers' =>
    match decode_strings (strings rd) txt_records with
    | Ok txt_records' => decode_answers answers' txt_records'
    | Raise e => Raise e
    end
  end.

(** The [except] clause of [fetch_txt_records]. *)
Definition caught (e : exn) : bool :=
  match e with
  | NoAnswer | NXDOMAIN | Timeout | NoNameservers => true
  | _ => false
  end.

(** [fetch_txt_records(domain, resolver)].  An exception raised inside the
    [try], by the query or by [decode], is handled only if the [except]
    clause names its class. *)
Definition fetch_txt_records (domain : str) (rs : resolver) : result (list str) :=
  let body :=
    match rs domain with
    | Ok answers => decode_answers answers []
    | Raise e => Raise e
    end in
  match body with
  | Ok txt_records => Ok txt_records
  | Raise e => if caught e then Ok [] else Raise e
  end.

(** ** Shared run state

    The module-level variables every thread reads and writes, the state of
    the [random] module, and a log of what the workers did: the domains
    handed to the resolver, the calls of [check_txt] that returned at its
    stop check, and the completed [domain_count += 1] statements.  The log
    is written, never read, by the program. *)

Record log := {
  queried : list str;
  skipped : nat;
  increments : nat;
}.

Record shared := {
  stop_event : bool;
  domain_count : Z;
  successful_domains : list str;
  gen : Random.rng;
  trace : log;
}.

Definition set_stop (s : shared) : shared :=
  {| stop_event := true; domain_count := domain_count s;
     successful_domains := successful_domains s; gen := gen s;
     trace := trace s |}.

Definition store_count (v : Z) (s : shared) : shared :=
  {| stop_event := stop_event s; domain_count := v;
     successful_domains := successful_domains s; gen := gen s;
     trace := {| queried := queried (trace s); skipped := skipped (trace s);
                 increments := S (increments (trace s)) |} |}.

Definition append_domain (d : str) (s : shared) : shared :=
  {| stop_event := stop_event s; domain_count := domain_count s;
     successful_domains := successful_domains s ++ [d]; gen := gen s;
     trace := trace s |}.

Definition set_gen (g : Random.rng) (s : shared) : shared :=
  {| stop_event := stop_event s; domain_count := domain_count s;
     successful_domains := successful_domains s; gen := g;
     trace := trace s |}.

Definition note_query (d : str) (s : shared) : shared :=
  {| stop_event := stop_event s; domain_count := domain_count s;
     successful_domains := successful_domains s; gen := gen s;
     trace := {| queried := queried (trace s) ++ [d];
                 skipped := skipped (trace s);
                 increments := increments (trace s) |} |}.

Definition note_skip (s : shared) : shared :=
  {| stop_event := stop_event s; domain_count := domain_count s;
     successful_domains := successful_domains s; gen := gen s;
     trace := {| queried := queried (trace s);
                 skipped := S (skipped (trace s));
                 increments := increments (trace s) |} |}.

Definition empty_log : log := {| queried := []; skipped := 0; increments := 0 |}.

(** The state at start-up: [stop_event = Event()], [domain_count = 0],
    [successful_domains = []]. *)
Definition initial (g : Random.rng) : shared :=
  {| stop_event := false; domain_count := 0; successful_domains := [];
     gen := g; trace := empty_log |}.

(** A Python reference.  The workers return the list object bound to
    [successful_domains] itself, not a copy: a holder of the reference sees
    every later append. *)
Inductive pyref := SuccessfulDomains.

Definition deref (s : shared) (r : pyref) : list str :=
  match r with SuccessfulDomains => successful_domains s end.

(** Truth value of a list: non-empty. *)
Definition truthy (l : list str) : bool :=
  match l with [] => false | _ => true end.

(** ** Probing, one thread at a time *)

Section Probe.

Context (rs : resolver) (txt_record_to_check : str) (tlds : list str).

(** The loop [for txt in txt_records] of [check_txt], which returns at the
    first value that matches. *)
Fixpoint scan (txt_records : list str) : bool :=
  match txt_records with
  | [] => false
  | txt :: rest =>
    if Text.txt_matches txt txt_record_to_check then true else scan rest
  end.

(** [check_txt(domain, resolver)]. *)
Definition check_txt (domain : str) (s : shared) : result bool * shared :=
  if stop_event s then (Ok false, note_skip s)
  else
    let s1 := note_query domain s in
    match fetch_txt_records domain rs with
    | Raise e => (Raise e, s1)
    | Ok txt_records =>
      if scan txt_records
      then (Ok true, append_domain domain s1)
      else (Ok false, s1)
    end.

(** The loop [for domain in domains] shared by [check_domains] and
    [check_domains_from_word]. *)
Fixpoint for_domains (domains : list str) (s : shared) : result unit * shared :=
  match domains with
  | [] => (Ok tt, s)
  | domain :: rest =>
    if stop_event s then (Ok tt, s)
    else
      let s1 := store_count (domain_count s + 1) s in
      match check_txt domain s1 with
      | (Raise e, s2) => (Raise e, s2)
      | (Ok true, s2) => for_domains rest (append_domain domain s2)
      | (Ok false, s2) => for_domains rest s2
      end
  end.

(** [check_domains_from_word(word, tlds, resolver)]. *)
Definition check_domains_from_word (word : str) (s : shared)
  : result pyref * shared :=
  match for_domains (generate_domains word tlds) s with
  | (Ok _, s') => (Ok SuccessfulDomains, s')
  | (Raise e, s') => (Raise e, s')
  end.

(** The word-list branch of [main] on a pool that runs the tasks one
    after the other in submission order ([--workers 1]): the futures, and
    the state once every task is done. *)
Fixpoint run_tasks (words : list str) (s : shared)
  : list (result pyref) * shared :=
  match words with
  | [] => ([], s)
  | word :: rest =>
    let '(r, s1) := check_domains_from_word word s in
    let '(rs', s2) := run_tasks rest s1 in
    (r :: rs', s2)
  end.

(** [if results:] in [main], evaluated in state [s]. *)
Definition reports_success (s : shared) (future : result pyref) : bool :=
  match future with
  | Ok results => truthy (deref s results)
  | Raise _ => false
  end.

(** [print_final_output()]: the content written to
    [successful_domains.txt], or [None] when the file is not written. *)
Definition print_final_output (s : shared) : option str :=
  if truthy (successful_domains s)
  then Some (concat (map (fun domain => fmt2 domain (str_of (String "010" EmptyString)))
                       (successful_domains s)))
  else None.

(** [main] with a word list and one worker, no interrupt: the state at
    exit and the output file. *)
Definition main_list (words : list str) (g : Random.rng) : shared * option str :=
  let '(_, s1) := run_tasks words (initial g) in
  let s2 := set_stop s1 in
  (s2, print_final_output s2).

End Probe.

(** ** The thread pool as an interleaving machine

    The worker functions again, cut at every access to the shared state, so
    that the steps of several pool threads, of the main thread, of the clock
    and of the operator can be interleaved.  Nothing in the program
    synchronises these accesses: [domain_count += 1] on a global is a read
    followed by a write, and another thread may run in between.  The
    progress thread ([update_domain_count]) only reads the shared state and
    is left out. *)

Inductive task :=
| AutoTask                (* [check_domains(tlds, resolver, auto=True)] *)
| WordTask (word : str).  (* [check_domains_from_word(word, tlds, resolver)] *)

(** Where a task stands. *)
Inductive pc :=
| Queued                                          (* submitted, not started *)
| AtWhile                                         (* [while not stop_event.is_set()] *)
| AtFor (domains : list str)                      (* [for domain in domains] and its stop check *)
| AtLoad (domain : str) (rest : list str)         (* [domain_count += 1]: the read *)
| AtStore (v : Z) (domain : str) (rest : list str) (* [domain_count += 1]: the write *)
| AtCheck (domain : str) (rest : list str)        (* [check_txt]: its stop check *)
| AtFetch (domain : str) (rest : list str)        (* [check_txt]: the lookup and the scan *)
| AtAppend (domain : str) (rest : list str)       (* [check_txt]: the append before [return True] *)
| AtAppendAgain (domain : str) (rest : list str)  (* the caller's append *)
| Returned (results : pyref)
| Failed (e : exn).

Record thread := { job : task; at_pc : pc }.

Definition finished (t : thread) : bool :=
  match at_pc t with Returned _ | Failed _ => true | _ => false end.

Definition queued (t : thread) : bool :=
  match at_pc t with Queued => true | _ => false end.

Definition running (t : thread) : bool := negb (queued t) && negb (finished t).

(** Where control goes when the [for] loop ends or breaks. *)
Definition after_for (j : task) : pc :=
  match j with
  | AutoTask => AtWhile
  | WordTask _ => Returned SuccessfulDomains
  end.

(** The main thread. *)
Inductive coordinator :=
| InLoop (yielded : list nat)  (* in [for future in as_completed(futures)] *)
| Leaving                      (* end of the [with] block: [shutdown(wait=True)] *)
| Exited                       (* [print_final_output()] done, [main] returned *)
| Interrupted.                 (* [signal_handler] has run; [sys.exit(0)] unwinds
                                  through [shutdown(wait=True)], the handler
                                  still installed *)

Inductive mode :=
| Auto (time : option Z)       (* [--auto], with or without [--time] *)
| WordList (words : list str). (* [--list], the words loaded from the file *)

Record system := {
  mem : shared;
  pool : list thread;
  main_at : coordinator;
  found_any : bool;
  start_time : Z;
  clock : Z;                   (* [time.time()] *)
  file : option str;           (* [successful_domains.txt], when written *)
}.

Inductive event :=
| Run (i : nat)    (* the pool thread of task [i] takes its next step *)
| Yield (i : nat)  (* [as_completed] hands future [i] to the loop body *)
| Main             (* the main thread moves on, outside the loop body *)
| Tick             (* one unit of wall-clock time passes *)
| Sigint.          (* the operator interrupts *)

Section Machine.

Context (rs : resolver) (txt_record_to_check : str) (tlds : list str).
Context (workers : nat) (args : mode).

(** One step of a started task. *)
Definition worker_step (t : thread) (s : shared) : option (pc * shared) :=
  match at_pc t with
  | Queued =>
    match job t with
    | AutoTask => Some (AtWhile, s)
    | WordTask word => Some (AtFor (generate_domains word tlds), s)
    end
  | AtWhile =>
    if stop_event s then Some (Returned SuccessfulDomains, s)
    else
      let '(domains, g) := generate_random_domain tlds (gen s) in
      Some (AtFor domains, set_gen g s)
  | AtFor [] => Some (after_for (job t), s)
  | AtFor (domain :: rest) =>
    if stop_event s then Some (after_for (job t), s)
    else Some (AtLoad domain rest, s)
  | AtLoad domain rest => Some (AtStore (domain_count s) domain rest, s)
  | AtStore v domain rest => Some (AtCheck domain rest, store_count (v + 1) s)
  | AtCheck domain rest =>
    if stop_event s then Some (AtFor rest, note_skip s)
    else Some (AtFetch domain rest, s)
  | AtFetch domain rest =>
    let s1 := note_query domain s in
    match fetch_txt_records domain rs with
    | Raise e => Some (Failed e, s1)
    | Ok txt_records =>
      if scan txt_record_to_check txt_records
      then Some (AtAppend domain rest, s1)
      else Some (AtFor rest, s1)
    end
  | AtAppend domain rest => Some (AtAppendAgain domain rest, append_domain domain s)
  | AtAppendAgain domain rest => Some (AtFor rest, append_domain domain s)
  | Returned _ | Failed _ => None
  end.

(** A queued task starts when a pool thread is free and every task
    submitted before it has started. *)
Definition can_start (i : nat) (p : list thread) : bool :=
  (length (filter (fun t => running t = true) p) <? workers)%nat &&
  forallb (fun t => negb (queued t)) (take i p).

(** [args.time and (time.time() - start_time) > args.time]. *)
Definition time_is_up (time : option Z) (start now : Z) : bool :=
  match time with
  | None => false
  | Some t => if t =? 0 then false else now - start >? t
  end.

Definition with_mem (s : shared) (x : system) : system :=
  {| mem := s; pool := pool x; main_at := main_at x; found_any := found_any x;
     start_time := start_time x; clock := clock x; file := file x |}.

Definition with_main (c : coordinator) (x : system) : system :=
  {| mem := mem x; pool := pool x; main_at := c; found_any := found_any x;
     start_time := start_time x; clock := clock x; file := file x |}.

Definition with_found (b : bool) (x : system) : system :=
  {| mem := mem x; pool := pool x; main_at := main_at x; found_any := b;
     start_time := start_time x; clock := clock x; file := file x |}.

(** [print_final_output()]: the file is rewritten only when there is a
    match to write. *)
Definition sink (x : system) : system :=
  {| mem := mem x; pool := pool x; main_at := main_at x;
     found_any := found_any x; start_time := start_time x; clock := clock x;
     file := match print_final_output (mem x) with
             | Some content => Some content
             | None => file x
             end |}.

(** The body of [for future in as_completed(futures)] for future [i]. *)
Definition loop_body (i : nat) (t : thread) (yielded : list nat) (x : system)
  : system :=
  if stop_event (mem x) then with_main Leaving x
  else
    match args with
    | Auto time =>
      if time_is_up time (start_time x) (clock x)
      then with_main Leaving (with_mem (set_stop (mem x)) x)
      else with_main (InLoop (i :: yielded)) x
    | WordList _ =>
      match at_pc t with
      | Returned results =>
        let x' := if truthy (deref (mem x) results) then with_found true x else x in
        with_main (InLoop (i :: yielded)) x'
      | _ => with_main (InLoop (i :: yielded)) x
      end
    end.

(** One event; [None] when the event cannot happen in this state. *)
Definition step (ev : event) (x : system) : option system :=
  match ev with
  | Run i =>
    match pool x !! i with
    | None => None
    | Some t =>
      if queued t && negb (can_start i (pool x)) then None
      else
        match worker_step t (mem x) with
        | None => None
        | Some (p, s) =>
          Some {| mem := s;
                  pool := <[i := {| job := job t; at_pc := p |}]> (pool x);
                  main_at := main_at x; found_any := found_any x;
                  start_time := start_time x; clock := clock x;
                  file := file x |}
        end
    end
  | Yield i =>
    match main_at x, pool x !! i with
    | InLoop yielded, Some t =>
      if finished t && negb (bool_decide (i ∈ yielded))
      then Some (loop_body i t yielded x)
      else None
    | _, _ => None
    end
  | Main =>
    match main_at x with
    | InLoop yielded =>
      if (length (pool x) <=? length yielded)%nat
      then Some (with_main Leaving x)
      else None
    | Leaving =>
      if forallb finished (pool x)
      then Some (with_main Exited (sink (with_mem (set_stop (mem x)) x)))
      else None
    | _ => None
    end
  | Tick =>
    Some {| mem := mem x; pool := pool x; main_at := main_at x;
            found_any := found_any x; start_time := start_time x;
            clock := clock x + 1; file := file x |}
  | Sigint =>
    match main_at x with
    | InLoop _ | Leaving | Interrupted =>
      Some (with_main Interrupted (sink (with_mem (set_stop (mem x)) x)))
    | Exited => None
    end
  end.

(** An event that cannot happen leaves the state as it is. *)
Definition exec (ev : event) (x : system) : system :=
  match step ev x with Some x' => x' | None => x end.

Fixpoint run (evs : list event) (x : system) : system :=
  match evs with
  | [] => x
  | ev :: evs' => run evs' (exec ev x)
  end.

(** Every event of the schedule can happen when its turn comes. *)
Fixpoint feasible (evs : list event) (x : system) : bool :=
  match evs with
  | [] => true
  | ev :: evs' =>
    match step ev x with
    | Some x' => feasible evs' x'
    | None => false
    end
  end.

(** [P] holds now and after every event of the schedule. *)
Fixpoint always (P : system -> bool) (evs : list event) (x : system) : bool :=
  P x && match evs with
         | [] => true
         | ev :: evs' => always P evs' (exec ev x)
         end.

(** The futures submitted by [main]. *)
Definition submitted : list thread :=
  match args with
  | Auto _ => replicate workers {| job := AutoTask; at_pc := Queued |}
  | WordList words => map (fun word => {| job := WordTask word; at_pc := Queued |}) words
  end.

(** The system when the executor has been handed its tasks, at time
    [now], in a directory with no [successful_domains.txt] from an earlier
    run. *)
Definition boot (g : Random.rng) (now : Z) : system :=
  {| mem := initial g; pool := submitted; main_at := InLoop [];
     found_any := false; start_time := now; clock := now; file := None |}.

(** A task is inside [domain_count += 1]: it has read and not yet
    written. *)
Definition in_increment (t : thread) : bool :=
  match at_pc t with AtStore _ _ _ => true | _ => false end.

(** A task has counted its candidate and not yet probed or skipped it. *)
Definition in_flight (t : thread) : bool :=
  match at_pc t with AtCheck _ _ | AtFetch _ _ => true | _ => false end.

Definition tally (f : thread -> bool) (p : list thread) : nat :=
  length (filter (fun t => f t = true) p).

(** At most one task is inside [domain_count += 1]. *)
Definition exclusive (x : system) : bool := (tally in_increment (pool x) <=? 1)%nat.

Definition all_finished (x : system) : bool := forallb finished (pool x).

End Machine.

(** ** Concrete runs *)

Module Scenario.

Definition target : str := str_of "v=spf1 include:_custspf.one.com ~all".

Definition txt (value : string) : rdata := {| strings := [bytes_of value] |}.

(** Only [acme.se] carries the target; no other name exists. *)
Definition only_acme_se : resolver :=
  fun domain =>
    if bool_decide (domain = str_of "acme.se")
    then Ok [txt "v=spf1 include:_custspf.one.com ~all"]
    else Raise NXDOMAIN.

(** No name exists. *)
Definition nothing : resolver := fun _ => Raise NXDOMAIN.

Definition g0 : Random.rng :=
  {| Random.draws := fun n => Z.of_nat n * 7 + 3; Random.pos := 0 |}.

Definition words : list str := [str_of "acme"; str_of "foo"].
Definition tlds : list str := [str_of ".com"; str_of ".se"].

Definition newline : str := [10].

(** Two word tasks of one candidate each: both read the counter, then
    both write. *)
Definition interleaved : list event :=
  [Run 0; Run 1; Run 0; Run 1; Run 0; Run 1; Run 0; Run 1;
   Run 0; Run 0; Run 0; Run 1; Run 1; Run 1; Yield 0; Yield 1; Main; Main].

(** The same two tasks, one after the other. *)
Definition serial : list event :=
  [Run 0; Run 0; Run 0; Run 0; Run 0; Run 0; Run 0;
   Run 1; Run 1; Run 1; Run 1; Run 1; Run 1; Run 1; Yield 0; Yield 1; Main; Main].

(** One word task of one candidate, interrupted between its increment
    and its probe. *)
Definition interrupted : list event :=
  [Run 0; Run 0; Run 0; Run 0; Sigint; Run 0; Run 0].

(** One random-mode worker, four ticks of the clock, and the main thread
    trying to move on. *)
Definition overtime : list event :=
  [Run 0; Run 0; Run 0; Tick; Run 0; Run 0; Tick; Yield 0; Main; Run 0;
   Tick; Run 0; Tick; Yield 0; Main; Run 0].

(** The two word tasks of [words] on a pool of one worker. *)
Definition one_worker : list event :=
  replicate 14 (Run 0) ++ [Yield 0] ++ replicate 12 (Run 1) ++ [Yield 1; Main; Main].

End Scenario.

(** ** Properties of candidates, runs and machine states *)

Definition is_ascii_lower (c : Z) : Prop := 97 <= c <= 122.

(** The character-string segments of an answer, over all its records. *)
Definition segments (answers : list rdata) : nat :=
  sum_list (map (fun rd => length (strings rd)) answers).

(** A candidate of the word matched: the lookup returned and one of its
    values passed the match test. *)
Definition matched (rs : resolver) (target : str) (domain : str) : bool :=
  match fetch_txt_records domain rs with
  | Ok txt_records => scan target txt_records
  | Raise _ => false
  end.

Definition own_match (rs : resolver) (target : str) (tlds : list str) (word : str)
  : bool :=
  existsb (matched rs target) (generate_domains word tlds).

Definition bit (b : bool) : nat := if b then 1%nat else 0%nat.

(** The counter never runs ahead of the completed increments, nor does a
    value read by a task that has not yet written. *)
Definition bounded (x : system) : Prop :=
  domain_count (mem x) <= Z.of_nat (increments (trace (mem x))) /\
  forall (i : nat) (t : thread) (v : Z) (d : str) (r : list str),
    pool x !! i = Some t -> at_pc t = AtStore v d r ->
    v <= Z.of_nat (increments (trace (mem x))).

(** Every counted candidate was probed, was skipped by [check_txt], or is
    still between its increment and its probe. *)
Definition accounted (x : system) : Prop :=
  increments (trace (mem x)) =
  (length (queried (trace (mem x))) + skipped (trace (mem x)) +
   tally in_flight (pool x))%nat.

(** The counter is the number of completed increments, and every value
    read and not yet written back is the current one. *)
Definition exact (x : system) : Prop :=
  domain_count (mem x) = Z.of_nat (increments (trace (mem x))) /\
  forall (i : nat) (t : thread) (v : Z) (d : str) (r : list str),
    pool x !! i = Some t -> at_pc t = AtStore v d r ->
    v = domain_count (mem x).

Definition no_sigint (evs : list event) : bool :=
  forallb (fun ev => match ev with Sigint => false | _ => true end) evs.

Fixpoint ticks (evs : list event) : nat :=
  match evs with
  | [] => 0%nat
  | Tick :: evs' => S (ticks evs')
  | _ :: evs' => ticks evs'
  end.

(** The flag is clear, the main thread is still waiting for its first
    future, and every task is an unfinished [check_domains]. *)
Definition spinning (workers : nat) (x : system) : Prop :=
  stop_event (mem x) = false /\
  main_at x = InLoop [] /\
  file x = None /\
  length (pool x) = workers /\
  forall (i : nat) (t : thread),
    pool x !! i = Some t -> job t = AutoTask /\ finished t = false.

(** A task stepping with no other thread in between, for at most [fuel]
    steps. *)
Fixpoint solo (rs : resolver) (target : str) (tlds : list str)
    (fuel : nat) (t : thread) (s : shared) : thread * shared :=
  match fuel with
  | O => (t, s)
  | S fuel' =>
    match worker_step rs target tlds t s with
    | Some (p, s') => solo rs target tlds fuel' {| job := job t; at_pc := p |} s'
    | None => (t, s)
    end
  end.

Definition outcome (r : result unit) : pc :=
  match r with
  | Ok _ => Returned SuccessfulDomains
  | Raise e => Failed e
  end.

(** ** Proof automation *)

Ltac wstep_cases H :=
  unfold worker_step in H; cbn [at_pc job] in H;
  repeat match type of H with
         | context [match ?e with _ => _ end] => destruct e eqn:?
         end;
  try discriminate; injection H as <- <-.

Ltac lookup_new H :=
  apply list_lookup_insert_Some in H as [(-> & <- & _) | (? & H)].

Ltac solo_step :=
  lazymatch goal with
  | |- context [solo _ _ _ ?n _ _] =>
    destruct n as [|n]; [exfalso; simpl in *; lia|]
  end;
  cbn [solo]; unfold worker_step at 1; cbn [at_pc job].


(** ** More measures on machine states *)

(** A task is inside the lookup of [check_txt]. *)
Definition at_fetch (t : thread) : bool :=
  match at_pc t with AtFetch _ _ => true | _ => false end.

(** The steps a task still takes once the stop flag is set, at most. *)
Definition steps_left (t : thread) : nat :=
  let after := match job t with AutoTask => 1%nat | WordTask _ => 0%nat end in
  match at_pc t with
  | Queued => 2
  | AtWhile => 1
  | AtFor _ => 1 + after
  | AtLoad _ _ => 4 + after
  | AtStore _ _ _ => 3 + after
  | AtCheck _ _ => 2 + after
  | AtFetch _ _ => 4 + after
  | AtAppend _ _ => 3 + after
  | AtAppendAgain _ _ => 2 + after
  | Returned _ | Failed _ => 0
  end%nat.

(** The candidates a word task has not yet counted. *)
Definition pending (tlds : list str) (t : thread) : nat :=
  match at_pc t with
  | Queued => length tlds
  | AtFor domains => length domains
  | AtLoad _ rest | AtStore _ _ rest => S (length rest)
  | AtCheck _ rest | AtFetch _ rest | AtAppend _ rest | AtAppendAgain _ rest =>
    length rest
  | AtWhile | Returned _ | Failed _ => 0
  end%nat.

Definition is_word_task (t : thread) : bool :=
  match job t with WordTask _ => true | AutoTask => false end.

Definition failed (t : thread) : bool :=
  match at_pc t with Failed _ => true | _ => false end.

(** The steps of pool threads in a schedule. *)
Fixpoint runs (evs : list event) : nat :=
  match evs with
  | [] => 0%nat
  | Run _ :: evs' => S (runs evs')
  | _ :: evs' => runs evs'
  end.

Definition only_runs (evs : list event) : bool :=
  forallb (fun ev => match ev with Run _ => true | _ => false end) evs.

(** Every recorded domain, and every domain about to be recorded, was
    looked up and carried the target. *)
Definition vouched (rs : resolver) (target : str) (x : system) : Prop :=
  (forall d, d ∈ successful_domains (mem x) ->
             matched rs target d = true /\ d ∈ queried (trace (mem x))) /\
  (forall (i : nat) (t : thread) (d : str) (r : list str),
      pool x !! i = Some t ->
      at_pc t = AtAppend d r \/ at_pc t = AtAppendAgain d r ->
      matched rs target d = true /\ d ∈ queried (trace (mem x))).

(** A word-list run that nothing has disturbed: the flag is clear while a
    task is unfinished, no probe was skipped, no task failed, and every
    candidate is either counted or still pending in its task. *)
Definition on_course (words tlds : list str) (x : system) : Prop :=
  (stop_event (mem x) = false \/ all_finished x = true) /\
  skipped (trace (mem x)) = 0%nat /\
  (forall (i : nat) (t : thread),
      pool x !! i = Some t ->
      is_word_task t = true /\ failed t = false /\ at_pc t <> AtWhile) /\
  (increments (trace (mem x)) + sum_list_with (pending tlds) (pool x) =
   length words * length tlds)%nat.

(** The same system with the output file of an earlier run in place. *)
Definition with_file (old : option str) (x : system) : system :=
  {| mem := mem x; pool := pool x; main_at := main_at x;
     found_any := found_any x; start_time := start_time x; clock := clock x;
     file := old |}.

(** What [print_final_output] leaves on disk when it runs in state [s] over
    the file [old]. *)
Definition written (s : shared) (old : option str) : option str :=
  match print_final_output s with
  | Some content => Some content
  | None => old
  end.

(** The main thread has not reached the end of [main], nor been
    interrupted. *)
Definition in_progress (x : system) : bool :=
  match main_at x with
  | InLoop _ | Leaving => true
  | Exited | Interrupted => false
  end.

(** What the output file holds, by the state of the main thread, in a run
    that started over the file [old]. *)
Definition persisted (old : option str) (x : system) : Prop :=
  match main_at x with
  | Exited =>
    all_finished x = true /\ stop_event (mem x) = true /\
    file x = written (mem x) old
  | Interrupted => True
  | InLoop _ | Leaving => file x = old
  end.

(** ** More concrete runs *)

Module Cases.

(** One word task on [acme.se], interrupted while its lookup is in
    progress. *)
Definition interrupted_lookup : list event :=
  [Run 0; Run 0; Run 0; Run 0; Run 0; Sigint; Run 0; Run 0; Run 0; Run 0].

(** One random-mode worker, interrupted after its first probe, and the
    steps it has left. *)
Definition stopped_worker : list event :=
  [Run 0; Run 0; Run 0; Run 0; Run 0; Run 0; Run 0; Sigint].

Definition drain : list event := [Run 0; Run 0].

(** The two word tasks of [Scenario.words] on two workers, in turns, and
    the main thread collecting them. *)
Definition in_turns : list event :=
  [Run 0; Run 1; Run 0; Run 1; Run 0; Run 0; Run 1; Run 1; Run 0; Run 1;
   Run 0; Run 1; Run 0; Run 1; Run 0; Run 1; Run 0; Run 1; Run 0; Run 1;
   Run 0; Run 1; Run 0; Run 1; Run 0; Run 0; Yield 1; Yield 0; Main; Main].

(** [acme.se] carries the target, the other candidates of
    [Scenario.words] do not exist, and a lookup of any other name fails
    in a way [fetch_txt_records] does not handle. *)
Definition candidates_only : resolver :=
  fun domain =>
    if bool_decide (domain = str_of "acme.se")
    then Ok [Scenario.txt "v=spf1 include:_custspf.one.com ~all"]
    else if bool_decide (domain ∈ [str_of "acme.com"; str_of "foo.com";
                                   str_of "foo.se"])
         then Raise NXDOMAIN
         else Raise (OtherError "EmptyLabel").

(** The word list [foo, acme] on two workers: the task of [foo] runs to
    its end, then the task of [acme], and only then does the main thread
    collect the task of [foo]. *)
Definition foo_then_acme : list str := [str_of "foo"; str_of "acme"].

Definition foo_first : list event :=
  replicate 12 (Run 0) ++ replicate 14 (Run 1) ++ [Yield 0].

End Cases.

(** The candidates a task has still to look up. *)
Definition todo (tlds : list str) (t : thread) : list str :=
  match at_pc t with
  | Queued =>
    match job t with
    | WordTask word => generate_domains word tlds
    | AutoTask => []
    end
  | AtFor domains => domains
  | AtLoad d rest | AtStore _ d rest | AtCheck d rest | AtFetch d rest => d :: rest
  | AtAppend _ rest | AtAppendAgain _ rest => rest
  | AtWhile | Returned _ | Failed _ => []
  end.

(** Task [i] works on word [i] and goes through its candidates in order:
    the candidates are those already looked up followed by those still to
    do; those already looked up appear, in that order, among the lookups
    issued, and each of them that carries the target is in the list of
    matches or about to be appended by this task; and only candidates of
    the words were looked up. *)
Definition orderly (rs : resolver) (target : str) (words tlds : list str)
    (x : system) : Prop :=
  length (pool x) = length words /\
  (forall (i : nat) (t : thread),
      pool x !! i = Some t ->
      exists w done,
        words !! i = Some w /\ job t = WordTask w /\
        generate_domains w tlds = done ++ todo tlds t /\
        done `sublist_of` queried (trace (mem x)) /\
        (forall c, c ∈ done -> matched rs target c = true ->
                   c ∈ successful_domains (mem x) \/
                   exists r, at_pc t = AtAppend c r)) /\
  (forall c, c ∈ queried (trace (mem x)) ->
             exists w, w ∈ words /\ c ∈ generate_domains w tlds).


(** Every lookup the word list can lead to is handled. *)
Definition candidates_handled (rs : resolver) (words tlds : list str) : Prop :=
  forall w tld, w ∈ words -> tld ∈ tlds ->
                exists l, fetch_txt_records (w ++ tld) rs = Ok l.

(** ** Arguments of [main] *)

(** [s.split(sep)] for a separator of one character: the scan keeps the
    piece read so far and closes it at every separator. *)
Fixpoint split_go (sep : Z) (piece : str) (s : str) : list str :=
  match s with
  | [] => [piece]
  | c :: s' =>
    if c =? sep then piece :: split_go sep [] s'
    else split_go sep (piece ++ [c]) s'
  end.

Definition split (sep : Z) (s : str) : list str := split_go sep [] s.

(** [sep.join(pieces)]. *)
Fixpoint join (sep : str) (pieces : list str) : str :=
  match pieces with
  | [] => []
  | [piece] => piece
  | piece :: rest => piece ++ sep ++ join sep rest
  end.

Definition comma : Z := 44.

(** The module-level default, [tlds = ['.com', '.se', '.no', '.dk']]. *)
Definition default_tlds : list str :=
  [str_of ".com"; str_of ".se"; str_of ".no"; str_of ".dk"].

(** [if args.tlds: tlds = args.tlds.split(',')]: the option is absent
    ([None]) or a string, and the empty string is false. *)
Definition select_tlds (arg : option str) : list str :=
  match arg with
  | Some (c :: s) => split comma (c :: s)
  | Some [] | None => default_tlds
  end.

(** ** Reading the output file back *)

(** The lines of a text, each without its line feed, as reading the file
    line by line gives them. *)
Fixpoint lines_go (line : str) (content : str) : list str :=
  match content with
  | [] => match line with [] => [] | _ => [line] end
  | c :: rest =>
    if c =? 10 then line :: lines_go [] rest
    else lines_go (line ++ [c]) rest
  end.

Definition lines_of (content : str) : list str := lines_go [] content.

(** ** The record extractor, [txtdomainextracter.py] *)

Definition dot : Z := 46.

(** [get_base_domain(include_entry)]: the last two dot-separated parts. *)
Definition get_base_domain (include_entry : str) : str :=
  let parts := split dot include_entry in
  if (2 <=? length parts)%nat
  then join [dot] (drop (length parts - 2) parts)
  else include_entry.

(** [[txt_part.decode() for txt_part in rdata.strings]]. *)
Fixpoint decode_parts (segs : list bytes) : result (list str) :=
  match segs with
  | [] => Ok []
  | txt_part :: segs' =>
    match Utf8.decode txt_part with
    | Raise e => Raise e
    | Ok s =>
      match decode_parts segs' with
      | Raise e => Raise e
      | Ok rest => Ok (s :: rest)
      end
    end
  end.

(** [s.startswith(prefix)]. *)
Fixpoint startswith (prefix s : str) : bool :=
  match prefix, s with
  | [], _ => true
  | p :: prefix', c :: s' => (p =? c) && startswith prefix' s'
  | _ :: _, [] => false
  end.

(** The loop of [get_spf_record]: the first record whose joined
    character-strings start with [v=spf1]. *)
Fixpoint first_spf (answers : list rdata) : result (option str) :=
  match answers with
  | [] => Ok None
  | rd :: answers' =>
    match decode_parts (strings rd) with
    | Raise e => Raise e
    | Ok parts =>
      let txt := concat parts in
      if startswith (str_of "v=spf1") txt then Ok (Some txt)
      else first_spf answers'
    end
  end.

(** [get_spf_record(domain)], over the resolver the module uses.  Its
    [except Exception] turns every failure into [None]. *)
Definition get_spf_record (domain : str) (rs : resolver) : option str :=
  let body :=
    match rs domain with
    | Ok answers => first_spf answers
    | Raise e => Raise e
    end in
  match body with
  | Ok found => found
  | Raise _ => None
  end.

(** ** More proof automation *)

Ltac quiet_step :=
  split; [left; reflexivity|]; split; [left; reflexivity|];
  split; intros ? ? E; discriminate E.

(** ** Facts about [strip] *)
Module TextFacts.
Import Text.

Lemma lstrip_split (s : str) :
  exists l, s = l ++ lstrip s /\ forallb isspace l = true /\
            starts_with_space (lstrip s) = false.
Proof.
  induction s as [|c s IH]; simpl.
  - exists []. auto.
  - destruct (isspace c) eqn:Hc.
    + destruct IH as (l & Hs & Hl & Hh).
      exists (c :: l). simpl. rewrite Hc, Hl. split; [congruence | auto].
    + exists []. simpl. auto.
Qed.

Lemma lstrip_spaces_app (l s : str) :
  forallb isspace l = true -> lstrip (l ++ s) = lstrip s.
Proof.
  induction l as [|c l IH]; simpl; [auto|].
  intros H. apply andb_true_iff in H as [Hc Hl]. rewrite Hc. auto.
Qed.

Lemma lstrip_spaces (l : str) : forallb isspace l = true -> lstrip l = [].
Proof.
  intros H. rewrite <- (app_nil_r l). rewrite lstrip_spaces_app; auto.
Qed.

Lemma lstrip_id (s : str) : starts_with_space s = false -> lstrip s = s.
Proof. destruct s as [|c s]; simpl; [auto|]. intros ->. auto. Qed.

Lemma starts_app (s r : str) :
  s <> [] -> starts_with_space (s ++ r) = starts_with_space s.
Proof. destruct s; simpl; congruence. Qed.

Lemma forallb_reverse (l : str) :
  forallb isspace (reverse l) = forallb isspace l.
Proof.
  induction l as [|c l IH]; simpl; [auto|].
  rewrite reverse_cons, forallb_app, IH. simpl. rewrite andb_true_r.
  apply andb_comm.
Qed.

Lemma rstrip_split (s : str) :
  exists r, s = rstrip s ++ r /\ forallb isspace r = true /\
            ends_with_space (rstrip s) = false.
Proof.
  destruct (lstrip_split (reverse s)) as (l & Hs & Hl & Hh).
  exists (reverse l). unfold rstrip, ends_with_space.
  rewrite reverse_involutive, forallb_reverse.
  split; [|auto].
  rewrite <- reverse_app, <- Hs, reverse_involutive. auto.
Qed.

Lemma strip_Trimmed (txt : str) : Trimmed txt (strip txt).
Proof.
  unfold strip.
  destruct (lstrip_split txt) as (l & Ht & Hl & Hh).
  destruct (rstrip_split (lstrip txt)) as (r & Hm & Hr & He).
  exists l, r. repeat split; auto.
  - rewrite <- Hm. auto.
  - destruct (rstrip (lstrip txt)) as [|c m] eqn:E; [auto|].
    rewrite Hm in Hh. simpl in *. auto.
Qed.

Lemma Trimmed_strip (txt core : str) : Trimmed txt core -> strip txt = core.
Proof.
  intros (l & r & -> & Hl & Hr & Hs & He). unfold strip.
  rewrite lstrip_spaces_app by auto.
  destruct core as [|c core].
  - simpl. rewrite lstrip_spaces by auto. reflexivity.
  - rewrite lstrip_id by (simpl in *; auto).
    unfold rstrip. rewrite reverse_app.
    rewrite lstrip_spaces_app by (rewrite forallb_reverse; auto).
    rewrite lstrip_id by auto. apply reverse_involutive.
Qed.

Lemma strip_no_outer_space (txt : str) :
  starts_with_space (strip txt) = false /\ ends_with_space (strip txt) = false.
Proof. destruct (strip_Trimmed txt) as (l & r & _ & _ & _ & Hs & He). auto. Qed.

End TextFacts.

(** ** The match test *)

(** C8: the match test holds exactly when the target is the fetched value
    with its leading and trailing whitespace removed; nothing else is
    normalised, so any other difference between the trimmed value and the
    target gives false. *)
Theorem txt_matches_iff_trimmed (txt target : str) :
  Text.txt_matches txt target = true <-> Text.Trimmed txt target.
Proof.
  unfold Text.txt_matches. rewrite bool_decide_eq_true. split.
  - intros <-. apply TextFacts.strip_Trimmed.
  - apply TextFacts.Trimmed_strip.
Qed.

Example txt_matches_trims :
  Text.txt_matches (str_of " v=spf1 include:_custspf.one.com ~all ")
    (str_of "v=spf1 include:_custspf.one.com ~all") = true.
Proof. reflexivity. Qed.

Example txt_matches_case_sensitive :
  Text.txt_matches (str_of "V=SPF1 include:_custspf.one.com ~all")
    (str_of "v=spf1 include:_custspf.one.com ~all") = false.
Proof. reflexivity. Qed.

Example txt_matches_inner_space :
  Text.txt_matches (str_of "v=spf1  include:_custspf.one.com ~all")
    (str_of "v=spf1 include:_custspf.one.com ~all") = false.
Proof. reflexivity. Qed.

Lemma txt_matches_padded_target (txt target : str) :
  Text.starts_with_space target || Text.ends_with_space target = true ->
  Text.txt_matches txt target = false.
Proof.
  intros H. unfold Text.txt_matches. apply bool_decide_eq_false. intros E.
  destruct (TextFacts.strip_no_outer_space txt) as [Hs He].
  rewrite E in Hs, He. rewrite Hs, He in H. discriminate.
Qed.

Lemma scan_padded_target (target : str) (txt_records : list str) :
  Text.starts_with_space target || Text.ends_with_space target = true ->
  scan target txt_records = false.
Proof.
  intros H. induction txt_records as [|txt rest IH]; simpl; [reflexivity|].
  rewrite txt_matches_padded_target by exact H. exact IH.
Qed.

(** C10: when the target starts or ends with whitespace, no fetched value
    matches it, not even the target itself, and [check_txt] never reports a
    match nor records the domain. *)
Theorem padded_target_never_matches (rs : resolver) (target : str) :
  Text.starts_with_space target || Text.ends_with_space target = true ->
  (forall txt, Text.txt_matches txt target = false) /\
  (forall domain s,
      fst (check_txt rs target domain s) <> Ok true /\
      successful_domains (snd (check_txt rs target domain s)) =
      successful_domains s).
Proof.
  intros H. split; [intros txt; apply txt_matches_padded_target; exact H|].
  intros domain s. unfold check_txt.
  destruct (stop_event s); [simpl; split; [discriminate|reflexivity]|].
  destruct (fetch_txt_records domain rs) as [txt_records|e]; simpl.
  - rewrite scan_padded_target by exact H. simpl. split; [discriminate|reflexivity].
  - split; [discriminate|reflexivity].
Qed.

Lemma padded_target_never_matches_witness :
  Text.txt_matches (str_of " v=spf1 ~all") (str_of " v=spf1 ~all") = false /\
  fst (check_txt (fun _ => Ok [ {| strings := [bytes_of " v=spf1 ~all"] |} ])
         (str_of " v=spf1 ~all") (str_of "acme.se")
         (initial {| Random.draws := fun _ => 0; Random.pos := 0 |})) <> Ok true.
Proof.
  pose proof (padded_target_never_matches
                (fun _ => Ok [ {| strings := [bytes_of " v=spf1 ~all"] |} ])
                (str_of " v=spf1 ~all") eq_refl) as [Hm Hc].
  split; [apply Hm | apply Hc].
Defined.

(** ** The candidate generator *)

Lemma ascii_lowercase_nth (i : nat) :
  (i < 26)%nat -> is_ascii_lower (nth i ascii_lowercase 0).
Proof.
  intros H. unfold is_ascii_lower.
  do 26 (destruct i as [|i]; [vm_compute; split; discriminate|]). lia.
Qed.

Lemma choices_lowercase (k : nat) (g : Random.rng) :
  length (fst (Random.choices ascii_lowercase k g)) = k /\
  Forall is_ascii_lower (fst (Random.choices ascii_lowercase k g)).
Proof.
  revert g. induction k as [|k IH]; intros g; simpl; [split; [reflexivity|constructor]|].
  destruct (Random.choices ascii_lowercase k _) as [rest g2] eqn:E.
  specialize (IH {| Random.draws := Random.draws g; Random.pos := S (Random.pos g) |}).
  rewrite E in IH. destruct IH as [Hlen Hall]. simpl in *.
  split; [congruence|]. constructor; [|exact Hall].
  apply ascii_lowercase_nth.
  change (Z.of_nat 26) with 26.
  pose proof (Z.mod_pos_bound (Random.draws g (Random.pos g)) 26 ltac:(lia)).
  lia.
Qed.

Lemma randint_3_8 (g : Random.rng) : 3 <= fst (Random.randint 3 8 g) <= 8.
Proof.
  unfold Random.randint, Random.randbelow. cbn [fst].
  change (8 - 3 + 1) with 6.
  pose proof (Z.mod_pos_bound (Random.draws g (Random.pos g)) 6 ltac:(lia)). lia.
Qed.

(** C9: one call of [generate_random_domain] gives one candidate per TLD,
    in the order of the TLD list, and every candidate is the same label of
    3 to 8 lowercase ASCII letters followed by its TLD. *)
Theorem generate_random_domain_shape (tlds : list str) (g : Random.rng) :
  exists label : str,
    (3 <= length label <= 8)%nat /\
    Forall is_ascii_lower label /\
    length (fst (generate_random_domain tlds g)) = length tlds /\
    forall (i : nat) (tld : str),
      tlds !! i = Some tld ->
      fst (generate_random_domain tlds g) !! i = Some (label ++ tld).
Proof.
  unfold generate_random_domain.
  pose proof (randint_3_8 g) as Hlen.
  destruct (Random.randint 3 8 g) as [len g1]. simpl in Hlen.
  pose proof (choices_lowercase (Z.to_nat len) g1) as [Hk Hlow].
  destruct (Random.choices ascii_lowercase (Z.to_nat len) g1) as [word g2].
  simpl in *. exists word. repeat split.
  - lia.
  - lia.
  - exact Hlow.
  - apply length_map.
  - intros i tld Hi. rewrite list_lookup_fmap, Hi. reflexivity.
Qed.

(** ** The resolver client *)

Example decode_two_byte_sequence :
  Utf8.decode [x63; x61; x66; xc3; xa9]%byte = Ok [99; 97; 102; 233].
Proof. reflexivity. Qed.

Example decode_rejects_overlong :
  Utf8.decode [xc0; x80]%byte = Raise UnicodeDecodeError.
Proof. reflexivity. Qed.

(** C3, as the claim states it, fails: a lookup that raises an exception
    outside the four named classes makes [fetch_txt_records] raise. *)
Lemma fetch_other_failure_propagates :
  fetch_txt_records (str_of "a..com")
    (fun _ => Raise (OtherError "dns.name.EmptyLabel"))
  = Raise (OtherError "dns.name.EmptyLabel").
Proof. reflexivity. Qed.

(** C3, amended: when the lookup raises, [fetch_txt_records] returns the
    empty list for the four expected classes and re-raises every other
    exception. *)
Theorem fetch_failure_cases (domain : str) (rs : resolver) (e : exn) :
  rs domain = Raise e ->
  (e = NoAnswer \/ e = NXDOMAIN \/ e = Timeout \/ e = NoNameservers ->
   fetch_txt_records domain rs = Ok []) /\
  (e <> NoAnswer -> e <> NXDOMAIN -> e <> Timeout -> e <> NoNameservers ->
   fetch_txt_records domain rs = Raise e).
Proof.
  intros H. unfold fetch_txt_records. rewrite H. split.
  - intros [-> | [-> | [-> | ->]]]; reflexivity.
  - intros H1 H2 H3 H4. destruct e; simpl; congruence.
Qed.

Lemma fetch_failure_cases_witness :
  fetch_txt_records (str_of "acme.se") (fun _ => Raise Timeout) = Ok [] /\
  fetch_txt_records (str_of "a..com")
    (fun _ => Raise (OtherError "dns.name.EmptyLabel"))
  = Raise (OtherError "dns.name.EmptyLabel").
Proof.
  split.
  - apply (fetch_failure_cases (str_of "acme.se") (fun _ => Raise Timeout) Timeout
             eq_refl). auto.
  - apply (fetch_failure_cases (str_of "a..com")
             (fun _ => Raise (OtherError "dns.name.EmptyLabel"))
             (OtherError "dns.name.EmptyLabel") eq_refl); discriminate.
Defined.

(** A value that is not UTF-8 is a failure of the second kind. *)
Example fetch_undecodable :
  fetch_txt_records (str_of "acme.se")
    (fun _ => Ok [ {| strings := [[x76; xe9]%byte] |} ])
  = Raise UnicodeDecodeError.
Proof. reflexivity. Qed.

(** Every segment that decodes becomes an entry of its own: the list
    returned has as many entries as the answer has segments. *)
Lemma decode_strings_length (segs : list bytes) (acc l : list str) :
  decode_strings segs acc = Ok l -> length l = (length acc + length segs)%nat.
Proof.
  revert acc. induction segs as [|b segs IH]; intros acc H; simpl in *.
  - injection H as <-. lia.
  - destruct (Utf8.decode b) as [s|e]; [|discriminate].
    apply IH in H. rewrite length_app in H. simpl in H. lia.
Qed.

Lemma decode_answers_length (answers : list rdata) (acc l : list str) :
  decode_answers answers acc = Ok l ->
  length l = (length acc + segments answers)%nat.
Proof.
  revert acc. induction answers as [|rd answers IH]; intros acc H;
    unfold segments in *; simpl in *.
  - injection H as <-. lia.
  - destruct (decode_strings (strings rd) acc) as [acc'|e] eqn:E; [|discriminate].
    apply decode_strings_length in E. apply IH in H. lia.
Qed.

Lemma decode_fuel_raises (n : nat) (bs : bytes) (e : exn) :
  Utf8.decode_fuel n bs = Raise e -> e = UnicodeDecodeError.
Proof.
  revert bs. induction n as [|n IH]; intros bs E; destruct bs as [|b0 bs];
    cbn [Utf8.decode_fuel] in E; try discriminate.
  - injection E as <-. reflexivity.
  - destruct (Utf8.decode1 (b0 :: bs)) as [[c rest]|];
      [|injection E as <-; reflexivity].
    destruct (Utf8.decode_fuel n rest) eqn:E'; [discriminate|].
    injection E as <-. eapply IH; eauto.
Qed.

Lemma decode_strings_raises (segs : list bytes) (acc : list str) (e : exn) :
  decode_strings segs acc = Raise e -> e = UnicodeDecodeError.
Proof.
  revert acc. induction segs as [|b segs IH]; intros acc H; simpl in *.
  - discriminate.
  - destruct (Utf8.decode b) as [s|e'] eqn:E; [eapply IH; eauto|].
    injection H as <-. eapply decode_fuel_raises. exact E.
Qed.

Lemma decode_answers_raises (answers : list rdata) (acc : list str) (e : exn) :
  decode_answers answers acc = Raise e -> e = UnicodeDecodeError.
Proof.
  revert acc. induction answers as [|rd answers IH]; intros acc H; simpl in *.
  - discriminate.
  - destruct (decode_strings (strings rd) acc) as [acc'|e'] eqn:E.
    + eapply IH; eauto.
    + injection H as <-. eapply decode_strings_raises; eauto.
Qed.

Lemma fetch_one_entry_per_segment
    (domain : str) (rs : resolver) (answers : list rdata) (l : list str) :
  rs domain = Ok answers ->
  fetch_txt_records domain rs = Ok l ->
  length l = segments answers.
Proof.
  unfold fetch_txt_records. intros ->.
  destruct (decode_answers answers []) as [l'|e] eqn:E.
  - intros [= <-]. apply decode_answers_length in E. simpl in E. exact E.
  - apply decode_answers_raises in E. subst e. discriminate.
Qed.

(** C4 at a record of two segments: [fetch_txt_records] returns the two
    segments as two entries, not the record's one concatenated value. *)
Theorem fetch_splits_segments :
  fetch_txt_records (str_of "acme.se")
    (fun _ => Ok [ {| strings := [bytes_of "v=spf1 "; bytes_of "~all"] |} ])
  = Ok [str_of "v=spf1 "; str_of "~all"].
Proof. reflexivity. Qed.

(** ** Facts about the machine *)

Section MachineFacts.

Context (rs : resolver) (target : str) (tlds : list str).
Context (workers : nat) (args : mode).

Local Abbreviation wstep := (worker_step rs target tlds).
Local Abbreviation mexec := (exec rs target tlds workers args).
Local Abbreviation mrun := (run rs target tlds workers args).
Local Abbreviation malways := (always rs target tlds workers args).

Lemma tally_cons (f : thread -> bool) (t : thread) (p : list thread) :
  tally f (t :: p) = (bit (f t) + tally f p)%nat.
Proof.
  unfold tally. rewrite filter_cons.
  destruct (decide (f t = true)) as [E|E].
  - rewrite E. reflexivity.
  - destruct (f t); [congruence | reflexivity].
Qed.

Lemma tally_insert (f : thread -> bool) (p : list thread) (i : nat) (t t' : thread) :
  p !! i = Some t ->
  (tally f (<[i := t']> p) + bit (f t) = tally f p + bit (f t'))%nat.
Proof.
  revert i. induction p as [|u p IH]; intros i H; [discriminate|].
  destruct i as [|i]; simpl in *.
  - injection H as ->. rewrite !tally_cons. lia.
  - rewrite !tally_cons. specialize (IH i H). lia.
Qed.

Lemma tally_lookup (f : thread -> bool) (p : list thread) (i : nat) (t : thread) :
  p !! i = Some t -> (bit (f t) <= tally f p)%nat.
Proof.
  revert i. induction p as [|u p IH]; intros i H; [discriminate|].
  rewrite tally_cons. destruct i as [|i]; simpl in *.
  - injection H as ->. lia.
  - specialize (IH i H). lia.
Qed.

Lemma tally_alone (f : thread -> bool) (p : list thread) (i j : nat) (ti tj : thread) :
  (tally f p <= 1)%nat ->
  p !! i = Some ti -> f ti = true ->
  p !! j = Some tj -> f tj = true -> i = j.
Proof.
  intros Hle Hi Hfi Hj Hfj.
  destruct (decide (i = j)) as [|Hne]; [assumption|exfalso].
  revert i j Hle Hi Hj Hne.
  induction p as [|u p IH]; intros i j Hle Hi Hj Hne; [discriminate|].
  rewrite tally_cons in Hle.
  destruct i as [|i], j as [|j]; simpl in *; try congruence.
  - injection Hi as ->. rewrite Hfi in Hle. simpl in Hle.
    pose proof (tally_lookup f p j tj Hj) as H2. rewrite Hfj in H2. simpl in H2. lia.
  - injection Hj as ->. rewrite Hfj in Hle. simpl in Hle.
    pose proof (tally_lookup f p i ti Hi) as H2. rewrite Hfi in H2. simpl in H2. lia.
  - apply (IH i j); auto. lia.
Qed.

Lemma tally_finished (f : thread -> bool) (p : list thread) :
  (forall t, f t = true -> finished t = false) ->
  forallb finished p = true -> tally f p = 0%nat.
Proof.
  intros Hf. induction p as [|t p IH]; simpl; intros H; [reflexivity|].
  apply andb_true_iff in H as [Ht Hp]. rewrite tally_cons, IH by assumption.
  destruct (f t) eqn:E; [|reflexivity]. rewrite (Hf t E) in Ht. discriminate.
Qed.

(** An event is a step of one task, or it leaves the pool, the counter
    and the log alone. *)
Lemma exec_cases (ev : event) (x : system) :
  (exists i t p s,
      pool x !! i = Some t /\ wstep t (mem x) = Some (p, s) /\
      mem (mexec ev x) = s /\
      pool (mexec ev x) = <[i := {| job := job t; at_pc := p |}]> (pool x)) \/
  (pool (mexec ev x) = pool x /\
   domain_count (mem (mexec ev x)) = domain_count (mem x) /\
   trace (mem (mexec ev x)) = trace (mem x)).
Proof.
  unfold exec, step.
  destruct ev as [i|i| | |]; simpl.
  - destruct (pool x !! i) as [t|] eqn:Hi; [|right; auto].
    destruct (queued t && negb (can_start workers i (pool x))); [right; auto|].
    destruct (wstep t (mem x)) as [[p s]|] eqn:Hw; [|right; auto].
    left. exists i, t, p, s. auto.
  - right. destruct (main_at x) as [yielded| | |]; auto.
    destruct (pool x !! i) as [t|]; auto.
    destruct (finished t && negb (bool_decide (i ∈ yielded))); auto.
    unfold loop_body.
    destruct (stop_event (mem x)); [auto|].
    destruct args as [time|ws].
    + destruct (time_is_up time (start_time x) (clock x)); auto.
    + destruct (at_pc t); auto.
      destruct (truthy (deref (mem x) results)); auto.
  - right. destruct (main_at x) as [yielded| | |]; auto.
    + destruct (length (pool x) <=? length yielded)%nat; auto.
    + destruct (forallb finished (pool x)); auto.
  - right. auto.
  - right. destruct (main_at x); auto.
Qed.

Lemma tally_submitted (f : thread -> bool) :
  (forall t, at_pc t = Queued -> f t = false) ->
  tally f (submitted workers args) = 0%nat.
Proof.
  intros Hf. unfold submitted. destruct args as [time|words].
  - induction workers as [|n IH]; [reflexivity|].
    simpl. rewrite tally_cons, IH, Hf; reflexivity.
  - induction words as [|w ws IH]; [reflexivity|].
    simpl. rewrite tally_cons, IH, Hf; reflexivity.
Qed.

Lemma submitted_queued (i : nat) (t : thread) :
  submitted workers args !! i = Some t -> at_pc t = Queued.
Proof.
  unfold submitted. destruct args as [time|words].
  - intros H. apply lookup_replicate in H as [-> _]. reflexivity.
  - rewrite list_lookup_fmap. destruct (words !! i); simpl; [|discriminate].
    intros [= <-]. reflexivity.
Qed.

(** *** The counter never runs ahead of the increments *)

Lemma after_for_not_store (j : task) (v : Z) (d : str) (r : list str) :
  after_for j <> AtStore v d r.
Proof. destruct j; discriminate. Qed.

Lemma bounded_exec (ev : event) (x : system) :
  bounded x -> bounded (mexec ev x).
Proof.
  intros [Hc Hr].
  destruct (exec_cases ev x) as [(i & t & p & s & Hi & Hw & Hm & Hp) | (Hp & Hd & Ht)].
  - unfold bounded. rewrite Hm, Hp. destruct t as [j0 p0].
    assert (forall v d r, p0 = AtStore v d r ->
                          v <= Z.of_nat (increments (trace (mem x)))) as Hown
        by (intros v d r E; apply (Hr i _ v d r Hi); exact E).
    wstep_cases Hw; simpl;
      (split;
       [ try (specialize (Hown _ _ _ eq_refl)); lia
       | intros j tj v' d' r' Hj Hpc; lookup_new Hj;
         [ simpl in Hpc; try discriminate;
           try (injection Hpc as <- _ _; lia);
           try (apply after_for_not_store in Hpc; contradiction)
         | specialize (Hr j tj _ _ _ Hj Hpc); lia ] ]).
  - unfold bounded. rewrite Hp, Hd, Ht. split; assumption.
Qed.

Lemma bounded_run (evs : list event) (x : system) :
  bounded x -> bounded (mrun evs x).
Proof.
  revert x. induction evs as [|ev evs IH]; intros x H; simpl; [assumption|].
  apply IH, bounded_exec, H.
Qed.

Lemma bounded_boot (g : Random.rng) (now : Z) :
  bounded (boot workers args g now).
Proof.
  split; simpl; [lia|].
  intros i t v d r Hi Hpc. apply submitted_queued in Hi. congruence.
Qed.

(** *** Every counted candidate is probed, skipped or still in flight *)

Lemma accounted_exec (ev : event) (x : system) :
  accounted x -> accounted (mexec ev x).
Proof.
  unfold accounted. intros H.
  destruct (exec_cases ev x) as [(i & t & p & s & Hi & Hw & Hm & Hp) | (Hp & Hd & Ht)].
  - rewrite Hm, Hp.
    pose proof (tally_insert in_flight (pool x) i t {| job := job t; at_pc := p |} Hi)
      as Hins.
    set (n' := tally in_flight (<[i:=_]> (pool x))) in *.
    set (n := tally in_flight (pool x)) in *. clearbody n n'.
    destruct t as [j0 p0].
    wstep_cases Hw; simpl in *; rewrite ?length_app; simpl;
      try (destruct j0; simpl in Hins); lia.
  - rewrite Hp, Ht. exact H.
Qed.

Lemma accounted_run (evs : list event) (x : system) :
  accounted x -> accounted (mrun evs x).
Proof.
  revert x. induction evs as [|ev evs IH]; intros x H; simpl; [assumption|].
  apply IH, accounted_exec, H.
Qed.

Lemma accounted_boot (g : Random.rng) (now : Z) :
  accounted (boot workers args g now).
Proof.
  unfold accounted. simpl. rewrite tally_submitted; [reflexivity|].
  intros t E. unfold in_flight. rewrite E. reflexivity.
Qed.

(** *** With one increment at a time the counter is exact *)

Lemma exact_exec (ev : event) (x : system) :
  exclusive x = true -> exact x ->
  exact (mexec ev x) /\ domain_count (mem x) <= domain_count (mem (mexec ev x)).
Proof.
  intros Hex [Hc Hr]. apply Nat.leb_le in Hex.
  destruct (exec_cases ev x) as [(i & t & p & s & Hi & Hw & Hm & Hp) | (Hp & Hd & Ht)].
  - unfold exact. rewrite Hm, Hp. destruct t as [j0 p0].
    assert (forall v d r, p0 = AtStore v d r -> v = domain_count (mem x)) as Hown
        by (intros v d r E; apply (Hr i _ v d r Hi); exact E).
    wstep_cases Hw; simpl;
      (split;
       [ split;
         [ try (specialize (Hown _ _ _ eq_refl)); lia
         | intros j tj v' d' r' Hj Hpc; lookup_new Hj;
           [ simpl in Hpc; try discriminate;
             try (injection Hpc as <- _ _; reflexivity);
             try (apply after_for_not_store in Hpc; contradiction)
           | first
               [ exact (Hr j tj _ _ _ Hj Hpc)
               | exfalso;
                 match goal with
                 | Hne : _ <> _ |- _ =>
                   apply Hne;
                   apply (tally_alone in_increment (pool x) _ _ _ _ Hex Hi eq_refl Hj);
                   unfold in_increment; rewrite Hpc; reflexivity
                 end ] ] ]
       | try (specialize (Hown _ _ _ eq_refl)); lia ]).
  - unfold exact. rewrite Hp, Hd, Ht. split; [split; assumption | lia].
Qed.

Lemma exact_run (evs : list event) (x : system) :
  malways (exclusive) evs x = true -> exact x ->
  exact (mrun evs x) /\ domain_count (mem x) <= domain_count (mem (mrun evs x)).
Proof.
  revert x. induction evs as [|ev evs IH]; intros x Ha Hx; simpl in *.
  - split; [assumption | lia].
  - apply andb_true_iff in Ha as [Hex Ha].
    destruct (exact_exec ev x Hex Hx) as [Hx' Hle].
    destruct (IH _ Ha Hx') as [Hx'' Hle']. split; [assumption | lia].
Qed.

Lemma exact_boot (g : Random.rng) (now : Z) : exact (boot workers args g now).
Proof.
  split; simpl; [reflexivity|].
  intros i t v d r Hi Hpc. apply submitted_queued in Hi. congruence.
Qed.

Lemma always_app (P : system -> bool) (evs1 evs2 : list event) (x : system) :
  malways P (evs1 ++ evs2) x = true ->
  malways P evs1 x = true /\ malways P evs2 (mrun evs1 x) = true.
Proof.
  revert x. induction evs1 as [|ev evs1 IH]; intros x H; simpl in *.
  - split; [|assumption]. destruct evs2; simpl in H;
      apply andb_true_iff in H as [-> _]; reflexivity.
  - apply andb_true_iff in H as [HP H]. destruct (IH _ H) as [H1 H2].
    rewrite HP, H1. auto.
Qed.

Lemma run_app (evs1 evs2 : list event) (x : system) :
  mrun (evs1 ++ evs2) x = mrun evs2 (mrun evs1 x).
Proof.
  revert x. induction evs1 as [|ev evs1 IH]; intros x; simpl; [reflexivity|].
  apply IH.
Qed.

End MachineFacts.

(** ** Random mode with a time bound *)

Section AutoMode.

Context (rs : resolver) (target : str) (tlds : list str).
Context (workers : nat) (time : option Z).

Hypothesis workers_pos : (0 < workers)%nat.
Hypothesis lookups_handled : forall d, exists l, fetch_txt_records d rs = Ok l.

Local Abbreviation aexec := (exec rs target tlds workers (Auto time)).
Local Abbreviation arun := (run rs target tlds workers (Auto time)).

Lemma spinning_exec (ev : event) (x : system) :
  ev <> Sigint -> spinning workers x ->
  spinning workers (aexec ev x) /\
  clock (aexec ev x) = clock x + (match ev with Tick => 1 | _ => 0 end).
Proof.
  intros Hev Hx. pose proof Hx as (Hstop & Hmain & Hfile & Hlen & Hpool).
  unfold exec, step. destruct ev as [i|i| | |]; try congruence.
  - destruct (pool x !! i) as [t|] eqn:Hi;
      [|split; [exact Hx | lia]].
    destruct (queued t && negb (can_start workers i (pool x)));
      [split; [exact Hx | lia]|].
    destruct (Hpool i t Hi) as [Hjob Hfin].
    destruct (worker_step rs target tlds t (mem x)) as [[p s]|] eqn:Hw;
      [|split; [exact Hx | lia]].
    simpl. split; [|lia].
    destruct t as [j0 p0]. simpl in Hjob, Hfin. subst j0.
    assert (stop_event s = false /\
            finished {| job := AutoTask; at_pc := p |} = false) as [Hs Hp].
    { unfold worker_step in Hw; cbn [at_pc job] in Hw.
      destruct p0; try discriminate.
      - injection Hw as <- <-. auto.
      - rewrite Hstop in Hw.
        destruct (generate_random_domain tlds (gen (mem x))) as [ds g'].
        injection Hw as <- <-. auto.
      - destruct domains; [injection Hw as <- <-; auto|].
        rewrite Hstop in Hw. injection Hw as <- <-. auto.
      - injection Hw as <- <-. auto.
      - injection Hw as <- <-. auto.
      - rewrite Hstop in Hw. injection Hw as <- <-. auto.
      - destruct (lookups_handled domain) as [l Hl]. rewrite Hl in Hw.
        destruct (scan target l); injection Hw as <- <-; auto.
      - injection Hw as <- <-. auto.
      - injection Hw as <- <-. auto. }
    unfold spinning. simpl.
    split; [exact Hs|]. split; [exact Hmain|]. split; [exact Hfile|].
    split; [rewrite length_insert; exact Hlen|].
    intros j tj Hj.
    lookup_new Hj; [split; [reflexivity | exact Hp] | apply (Hpool _ _ Hj)].
  - rewrite Hmain. destruct (pool x !! i) as [t|] eqn:Hi;
      [|split; [exact Hx | lia]].
    destruct (Hpool i t Hi) as [_ ->]. simpl.
    split; [exact Hx | lia].
  - rewrite Hmain, Hlen. simpl.
    destruct workers; [lia|]. simpl.
    split; [exact Hx | lia].
  - simpl. split; [exact Hx | lia].
Qed.

Lemma spinning_run (evs : list event) (x : system) :
  no_sigint evs = true -> spinning workers x ->
  spinning workers (arun evs x) /\ clock (arun evs x) = clock x + Z.of_nat (ticks evs).
Proof.
  revert x. induction evs as [|ev evs IH]; intros x Hev Hx; simpl.
  - split; [assumption|]. lia.
  - simpl in Hev. apply andb_true_iff in Hev as [Hev Hevs].
    assert (ev <> Sigint) as Hne by (intros ->; discriminate).
    destruct (spinning_exec ev x Hne Hx) as [Hx' Hc].
    destruct (IH _ Hevs Hx') as [Hx'' Hc']. split; [assumption|].
    rewrite Hc', Hc. destruct ev; simpl; lia.
Qed.

Lemma spinning_boot (g : Random.rng) (now : Z) :
  spinning workers (boot workers (Auto time) g now).
Proof.
  repeat split; simpl.
  - apply length_replicate.
  - apply lookup_replicate in H as [-> _]. reflexivity.
  - apply lookup_replicate in H as [-> _]. reflexivity.
Qed.

End AutoMode.

(** ** The claims about the run as a whole *)

(** C1: in random mode the time bound is never acted on.  As long as the
    operator does not interrupt, no lookup raises an unhandled exception
    and there is at least one worker, the stop flag stays clear, the main
    thread stays inside [as_completed] without having received any future,
    no worker returns and nothing is written, whatever the clock shows. *)
Theorem time_bound_not_enforced
    (rs : resolver) (target : str) (tlds : list str) (workers : nat)
    (time : option Z) (g : Random.rng) (now : Z) (evs : list event) :
  (0 < workers)%nat ->
  (forall d, exists l, fetch_txt_records d rs = Ok l) ->
  no_sigint evs = true ->
  let x := run rs target tlds workers (Auto time) evs
               (boot workers (Auto time) g now) in
  clock x = now + Z.of_nat (ticks evs) /\
  stop_event (mem x) = false /\
  main_at x = InLoop [] /\
  all_finished x = false /\
  file x = None.
Proof.
  intros Hw Hrs Hev x.
  destruct (spinning_run rs target tlds workers time Hw Hrs evs _ Hev
              (spinning_boot workers time g now))
    as [(Hstop & Hmain & Hfile & Hlen & Hpool) Hclock].
  fold x in Hstop, Hmain, Hfile, Hlen, Hpool, Hclock.
  repeat split; try assumption.
  unfold all_finished. destruct (pool x) as [|t p] eqn:E; [simpl in Hlen; lia|].
  destruct (Hpool 0%nat t eq_refl) as [_ Hfin]. simpl. rewrite Hfin. reflexivity.
Qed.

Lemma time_bound_not_enforced_witness :
  let x := run Scenario.nothing Scenario.target Scenario.tlds 1 (Auto (Some 2))
               Scenario.overtime (boot 1 (Auto (Some 2)) Scenario.g0 0) in
  clock x = 4 /\ stop_event (mem x) = false /\ main_at x = InLoop [] /\
  all_finished x = false /\ file x = None.
Proof.
  apply (time_bound_not_enforced Scenario.nothing Scenario.target Scenario.tlds 1
           (Some 2) Scenario.g0 0 Scenario.overtime).
  - lia.
  - intros d. exists []. reflexivity.
  - reflexivity.
Defined.

(** C7, as the claim states it, fails: two workers increment the counter
    once each and the counter ends at 1. *)
Lemma lost_update :
  let ws := [str_of "a"; str_of "b"] in
  let x0 := boot 2 (WordList ws) Scenario.g0 0 in
  let x := run Scenario.nothing Scenario.target [str_of ".com"] 2 (WordList ws)
               Scenario.interleaved x0 in
  feasible Scenario.nothing Scenario.target [str_of ".com"] 2 (WordList ws)
    Scenario.interleaved x0 = true /\
  main_at x = Exited /\
  increments (trace (mem x)) = 2%nat /\
  domain_count (mem x) = 1.
Proof. vm_compute. auto. Qed.

(** C7, amended: the counter is read and written back in two steps, so it
    never exceeds the number of increments performed, and it equals that
    number when no two workers are inside the increment at once. *)
Theorem count_at_most_increments
    (rs : resolver) (target : str) (tlds : list str) (workers : nat)
    (args : mode) (g : Random.rng) (now : Z) (evs : list event) :
  let x0 := boot workers args g now in
  let x := run rs target tlds workers args evs x0 in
  domain_count (mem x) <= Z.of_nat (increments (trace (mem x))) /\
  (always rs target tlds workers args exclusive evs x0 = true ->
   domain_count (mem x) = Z.of_nat (increments (trace (mem x)))).
Proof.
  intros x0 x. split.
  - apply (bounded_run rs target tlds workers args evs x0 (bounded_boot _ _ _ _)).
  - intros Hex.
    apply (exact_run rs target tlds workers args evs x0 Hex (exact_boot _ _ _ _)).
Qed.

Lemma count_at_most_increments_witness :
  let ws := [str_of "a"; str_of "b"] in
  let x := run Scenario.nothing Scenario.target [str_of ".com"] 2 (WordList ws)
               Scenario.serial (boot 2 (WordList ws) Scenario.g0 0) in
  increments (trace (mem x)) = 2%nat /\ domain_count (mem x) = 2.
Proof.
  split; [reflexivity|].
  apply (count_at_most_increments Scenario.nothing Scenario.target [str_of ".com"]
           2 (WordList [str_of "a"; str_of "b"]) Scenario.g0 0 Scenario.serial).
  reflexivity.
Defined.

(** C6, as the claim states it, fails: the one candidate is counted, the
    interrupt arrives, [check_txt] skips the probe, and the run ends with a
    count of 1 and no probe attempted. *)
Lemma counted_but_skipped :
  let ws := [str_of "a"] in
  let x0 := boot 1 (WordList ws) Scenario.g0 0 in
  let x := run Scenario.nothing Scenario.target [str_of ".com"] 1 (WordList ws)
               Scenario.interrupted x0 in
  feasible Scenario.nothing Scenario.target [str_of ".com"] 1 (WordList ws)
    Scenario.interrupted x0 = true /\
  all_finished x = true /\ main_at x = Interrupted /\
  queried (trace (mem x)) = [] /\
  domain_count (mem x) = 1.
Proof. vm_compute. auto. Qed.

(** C6, amended: when no two workers are inside the increment at once, the
    count never decreases and always equals the probes issued, plus the
    candidates that [check_txt] skipped at its own stop check, plus the
    candidates counted and not yet probed; at run end it equals the probes
    issued plus the candidates skipped after being counted. *)
Theorem count_accounts_for_candidates
    (rs : resolver) (target : str) (tlds : list str) (workers : nat)
    (args : mode) (g : Random.rng) (now : Z) (evs1 evs2 : list event) :
  let x0 := boot workers args g now in
  let x1 := run rs target tlds workers args evs1 x0 in
  let x2 := run rs target tlds workers args (evs1 ++ evs2) x0 in
  always rs target tlds workers args exclusive (evs1 ++ evs2) x0 = true ->
  domain_count (mem x1) <= domain_count (mem x2) /\
  domain_count (mem x2) =
    Z.of_nat (length (queried (trace (mem x2))) + skipped (trace (mem x2)) +
              tally in_flight (pool x2)) /\
  (all_finished x2 = true ->
   domain_count (mem x2) =
     Z.of_nat (length (queried (trace (mem x2))) + skipped (trace (mem x2)))).
Proof.
  intros x0 x1 x2 Hex.
  destruct (always_app rs target tlds workers args _ _ _ _ Hex) as [H1 H2].
  destruct (exact_run rs target tlds workers args evs1 x0 H1 (exact_boot _ _ _ _))
    as [Hx1 _]. fold x1 in Hx1, H2.
  destruct (exact_run rs target tlds workers args evs2 x1 H2 Hx1) as [[Hx2 _] Hle].
  unfold x1 in Hle, Hx2. rewrite <- run_app in Hle, Hx2. fold x1 x2 in Hle, Hx2.
  pose proof (accounted_run rs target tlds workers args (evs1 ++ evs2) x0
                (accounted_boot _ _ _ _)) as Hacc.
  fold x2 in Hacc. unfold accounted in Hacc.
  split; [exact Hle|]. split; [rewrite Hx2, Hacc; reflexivity|].
  intros Hfin. rewrite Hx2, Hacc.
  rewrite (tally_finished in_flight (pool x2)); [f_equal; lia | | exact Hfin].
  intros t Ht. unfold in_flight in Ht. unfold finished.
  destruct (at_pc t); congruence.
Qed.

Lemma count_accounts_for_candidates_witness :
  let ws := [str_of "a"; str_of "b"] in
  let x := run Scenario.nothing Scenario.target [str_of ".com"] 2 (WordList ws)
               Scenario.serial (boot 2 (WordList ws) Scenario.g0 0) in
  all_finished x = true /\
  domain_count (mem x) =
    Z.of_nat (length (queried (trace (mem x))) + skipped (trace (mem x))).
Proof.
  split; [reflexivity|].
  apply (count_accounts_for_candidates Scenario.nothing Scenario.target
           [str_of ".com"] 2 (WordList [str_of "a"; str_of "b"]) Scenario.g0 0
           (take 9 Scenario.serial) (drop 9 Scenario.serial));
    reflexivity.
Defined.

(** ** Word-list mode, one task after the other *)

Lemma truthy_app (l k : list str) : truthy (l ++ k) = truthy l || truthy k.
Proof. destruct l; [reflexivity|]. reflexivity. Qed.

Lemma truthy_twice (f : str -> bool) (ds : list str) :
  truthy (flat_map (fun d => if f d then [d; d] else []) ds) = existsb f ds.
Proof.
  induction ds as [|d ds IH]; simpl; [reflexivity|].
  rewrite truthy_app, IH. destruct (f d); reflexivity.
Qed.

(** With the flag clear and every lookup handled, the loop visits every
    candidate, counts it, and appends each one that matched twice: once in
    [check_txt] and once on its return. *)
Lemma for_domains_appends (rs : resolver) (target : str) (ds : list str) (s : shared) :
  stop_event s = false ->
  (forall d, d ∈ ds -> exists l, fetch_txt_records d rs = Ok l) ->
  fst (for_domains rs target ds s) = Ok tt /\
  stop_event (snd (for_domains rs target ds s)) = false /\
  successful_domains (snd (for_domains rs target ds s)) =
    successful_domains s ++
    flat_map (fun d => if matched rs target d then [d; d] else []) ds /\
  domain_count (snd (for_domains rs target ds s)) =
    domain_count s + Z.of_nat (length ds).
Proof.
  revert s. induction ds as [|d ds IH]; intros s Hstop Hrs; simpl.
  - rewrite app_nil_r. repeat split; auto. lia.
  - rewrite Hstop. unfold check_txt. simpl. rewrite Hstop.
    destruct (Hrs d ltac:(left)) as [l Hl].
    assert (forall d', d' ∈ ds -> exists l', fetch_txt_records d' rs = Ok l') as Hrs'
        by (intros d' Hd'; apply Hrs; right; exact Hd').
    unfold matched at 1. rewrite Hl.
    destruct (scan target l).
    + match goal with |- context [for_domains rs target ds ?s1] =>
        destruct (IH s1 Hstop Hrs') as (H1 & H2 & H3 & H4) end.
      rewrite H1, H2, H3, H4. simpl. rewrite <- !app_assoc. simpl.
      repeat split; auto. lia.
    + match goal with |- context [for_domains rs target ds ?s1] =>
        destruct (IH s1 Hstop Hrs') as (H1 & H2 & H3 & H4) end.
      rewrite H1, H2, H3, H4. simpl. repeat split; auto. lia.
Qed.

(** C2 on the word list [acme, foo] with TLDs [.com, .se], where only
    [acme.se] carries the target: the match is appended twice, and the
    output file has two lines. *)
Theorem acme_se_recorded_twice :
  let run_end := main_list Scenario.only_acme_se Scenario.target Scenario.tlds
                   Scenario.words Scenario.g0 in
  successful_domains (fst run_end) = [str_of "acme.se"; str_of "acme.se"] /\
  snd run_end = Some (str_of "acme.se" ++ Scenario.newline ++
                      str_of "acme.se" ++ Scenario.newline).
Proof. vm_compute. auto. Qed.


(** A word task run from start to end with no other thread in between
    returns the shared list of matches itself, which is non-empty at its
    end exactly when one of its own candidates matched or the list already
    held a match when the task began. *)
Lemma task_reports_shared_matches
    (rs : resolver) (target : str) (tlds : list str) (word : str) (s : shared) :
  stop_event s = false ->
  (forall d, d ∈ generate_domains word tlds ->
             exists l, fetch_txt_records d rs = Ok l) ->
  let task := check_domains_from_word rs target tlds word s in
  fst task = Ok SuccessfulDomains /\
  reports_success (snd task) (fst task) =
    own_match rs target tlds word || truthy (successful_domains s).
Proof.
  intros Hstop Hrs task. unfold task, check_domains_from_word.
  destruct (for_domains_appends rs target _ s Hstop Hrs) as (H1 & _ & H3 & _).
  destruct (for_domains rs target (generate_domains word tlds) s) as [r s'].
  simpl in *. subst r. simpl. split; [reflexivity|].
  rewrite H3, truthy_app, truthy_twice. unfold own_match. apply orb_comm.
Qed.

Lemma task_reports_shared_matches_witness :
  let s1 := snd (check_domains_from_word Scenario.only_acme_se Scenario.target
                   Scenario.tlds (str_of "acme") (initial Scenario.g0)) in
  let foo := check_domains_from_word Scenario.only_acme_se Scenario.target
               Scenario.tlds (str_of "foo") s1 in
  fst foo = Ok SuccessfulDomains /\
  reports_success (snd foo) (fst foo) =
    own_match Scenario.only_acme_se Scenario.target Scenario.tlds (str_of "foo")
    || truthy (successful_domains s1).
Proof.
  apply (task_reports_shared_matches Scenario.only_acme_se Scenario.target
           Scenario.tlds (str_of "foo")).
  - reflexivity.
  - intros d Hd. exists []. vm_compute in Hd.
    repeat (apply elem_of_cons in Hd as [-> | Hd]; [reflexivity|]).
    apply elem_of_nil in Hd. contradiction.
Defined.

(** ** One task alone on the machine *)

Lemma solo_finished (rs : resolver) (target : str) (tlds : list str)
    (fuel : nat) (t : thread) (s : shared) :
  finished t = true -> solo rs target tlds fuel t s = (t, s).
Proof.
  intros H. destruct fuel; [reflexivity|]. simpl.
  unfold worker_step. unfold finished in H.
  destruct (at_pc t); try discriminate; reflexivity.
Qed.

(** Alone, the machine computes [for_domains]: seven steps a candidate and
    one to leave the loop are enough, and the task ends returned or failed
    with the same shared state. *)
Lemma solo_for_domains (rs : resolver) (target : str) (tlds : list str)
    (word : str) (ds : list str) (s : shared) (n : nat) :
  (7 * length ds + 1 <= n)%nat ->
  solo rs target tlds n {| job := WordTask word; at_pc := AtFor ds |} s =
  ({| job := WordTask word;
      at_pc := outcome (fst (for_domains rs target ds s)) |},
   snd (for_domains rs target ds s)).
Proof.
  revert s n. induction ds as [|d ds IH]; intros s n Hn.
  - solo_step. simpl. apply solo_finished. reflexivity.
  - cbn [length] in Hn. solo_step. cbn [for_domains].
    destruct (stop_event s) eqn:Hstop.
    { simpl. apply solo_finished. reflexivity. }
    solo_step. solo_step. solo_step.
    unfold check_txt. cbn [stop_event store_count]. rewrite Hstop.
    solo_step.
    destruct (fetch_txt_records d rs) as [l|e].
    + destruct (scan target l).
      * solo_step. solo_step. apply IH. lia.
      * apply IH. lia.
    + simpl. apply solo_finished. reflexivity.
Qed.

Lemma solo_word_task (rs : resolver) (target : str) (tlds : list str)
    (word : str) (s : shared) :
  solo rs target tlds (7 * length tlds + 2)
       {| job := WordTask word; at_pc := Queued |} s =
  ({| job := WordTask word;
      at_pc := match fst (check_domains_from_word rs target tlds word s) with
               | Ok results => Returned results
               | Raise e => Failed e
               end |},
   snd (check_domains_from_word rs target tlds word s)).
Proof.
  replace (7 * length tlds + 2)%nat with (S (7 * length tlds + 1)) by lia.
  cbn [solo]. unfold worker_step at 1. cbn [at_pc job].
  rewrite solo_for_domains
    by (unfold generate_domains; rewrite length_map; lia).
  unfold check_domains_from_word.
  destruct (for_domains rs target (generate_domains word tlds) s) as [[u|e] s'];
    reflexivity.
Qed.

(** The machine on the example of C2, with one worker: the same two
    appends, the same file. *)
Example machine_acme_se_recorded_twice :
  let x0 := boot 1 (WordList Scenario.words) Scenario.g0 0 in
  let x := run Scenario.only_acme_se Scenario.target Scenario.tlds 1
               (WordList Scenario.words) Scenario.one_worker x0 in
  feasible Scenario.only_acme_se Scenario.target Scenario.tlds 1
    (WordList Scenario.words) Scenario.one_worker x0 = true /\
  main_at x = Exited /\
  successful_domains (mem x) = [str_of "acme.se"; str_of "acme.se"] /\
  found_any x = true /\
  file x = Some (str_of "acme.se" ++ Scenario.newline ++
                 str_of "acme.se" ++ Scenario.newline).
Proof. vm_compute. auto 6. Qed.

(** ** What the pool does to the shared state *)

Section MachineShape.

Context (rs : resolver) (target : str) (tlds : list str).
Context (workers : nat) (args : mode).

Local Abbreviation mstep := (step rs target tlds workers args).
Local Abbreviation mexec := (exec rs target tlds workers args).
Local Abbreviation mrun := (run rs target tlds workers args).
Local Abbreviation mfeasible := (feasible rs target tlds workers args).

(** An event is an enabled step of one task, which touches nothing but the
    shared state and that task, or it leaves the pool alone and at most
    sets the stop flag. *)
Lemma exec_shape (ev : event) (x : system) :
  (exists i t p s,
      ev = Run i /\ pool x !! i = Some t /\
      (queued t = true -> can_start workers i (pool x) = true) /\
      worker_step rs target tlds t (mem x) = Some (p, s) /\
      mexec ev x =
      {| mem := s; pool := <[i := {| job := job t; at_pc := p |}]> (pool x);
         main_at := main_at x; found_any := found_any x;
         start_time := start_time x; clock := clock x; file := file x |}) \/
  (pool (mexec ev x) = pool x /\
   (mem (mexec ev x) = mem x \/ mem (mexec ev x) = set_stop (mem x))).
Proof.
  unfold exec, step.
  destruct ev as [i|i| | |]; simpl.
  - destruct (pool x !! i) as [t|] eqn:Hi; [|right; auto].
    destruct (queued t && negb (can_start workers i (pool x))) eqn:Hq;
      [right; auto|].
    destruct (worker_step rs target tlds t (mem x)) as [[p s]|] eqn:Hw;
      [|right; auto].
    left. exists i, t, p, s. repeat split; auto.
    intros Ht. rewrite Ht in Hq. simpl in Hq.
    destruct (can_start workers i (pool x)); [reflexivity|discriminate].
  - right. destruct (main_at x) as [yielded| | |]; auto.
    destruct (pool x !! i) as [t|]; auto.
    destruct (finished t && negb (bool_decide (i ∈ yielded))); auto.
    unfold loop_body.
    destruct (stop_event (mem x)); [auto|].
    destruct args as [time|ws].
    + destruct (time_is_up time (start_time x) (clock x)); auto.
    + destruct (at_pc t); auto.
      destruct (truthy (deref (mem x) results)); auto.
  - right. destruct (main_at x) as [yielded| | |]; auto.
    + destruct (length (pool x) <=? length yielded)%nat; auto.
    + destruct (forallb finished (pool x)); auto.
  - right. auto.
  - right. destruct (main_at x); auto.
Qed.

Lemma exec_run_cases (i : nat) (x : system) :
  mexec (Run i) x = x \/
  exists t p s,
    pool x !! i = Some t /\
    worker_step rs target tlds t (mem x) = Some (p, s) /\
    mexec (Run i) x =
    {| mem := s; pool := <[i := {| job := job t; at_pc := p |}]> (pool x);
       main_at := main_at x; found_any := found_any x;
       start_time := start_time x; clock := clock x; file := file x |}.
Proof.
  unfold exec, step.
  destruct (pool x !! i) as [t|] eqn:Hi; [|left; reflexivity].
  destruct (queued t && negb (can_start workers i (pool x)));
    [left; reflexivity|].
  destruct (worker_step rs target tlds t (mem x)) as [[p s]|] eqn:Hw;
    [|left; reflexivity].
  right. exists t, p, s. auto.
Qed.

(** *** The stop flag is one-way *)

Lemma stop_stays_exec (ev : event) (x : system) :
  stop_event (mem x) = true -> stop_event (mem (mexec ev x)) = true.
Proof.
  intros Hstop.
  destruct (exec_shape ev x)
    as [(i & t & p & s & -> & Hi & Hq & Hw & ->) | (Hp & [-> | ->])];
    simpl; auto.
  destruct t as [j0 p0]. wstep_cases Hw; simpl; auto; congruence.
Qed.

Lemma stop_stays_run (evs : list event) (x : system) :
  stop_event (mem x) = true -> stop_event (mem (mrun evs x)) = true.
Proof.
  revert x. induction evs as [|ev evs IH]; intros x H; simpl; [exact H|].
  apply IH, stop_stays_exec, H.
Qed.

Lemma step_run (i : nat) (x x' : system) :
  mstep (Run i) x = Some x' ->
  exists t p s,
    pool x !! i = Some t /\
    (queued t = true -> can_start workers i (pool x) = true) /\
    worker_step rs target tlds t (mem x) = Some (p, s) /\
    x' = {| mem := s; pool := <[i := {| job := job t; at_pc := p |}]> (pool x);
            main_at := main_at x; found_any := found_any x;
            start_time := start_time x; clock := clock x; file := file x |}.
Proof.
  unfold step. destruct (pool x !! i) as [t|] eqn:Hi; [|discriminate].
  destruct (queued t && negb (can_start workers i (pool x))) eqn:Hq;
    [discriminate|].
  destruct (worker_step rs target tlds t (mem x)) as [[p s]|] eqn:Hw;
    [|discriminate].
  intros [= <-]. exists t, p, s. repeat split; auto.
  intros Ht. rewrite Ht in Hq. simpl in Hq.
  destruct (can_start workers i (pool x)); [reflexivity|discriminate].
Qed.

Lemma step_exec (ev : event) (x x' : system) :
  mstep ev x = Some x' -> mexec ev x = x'.
Proof. unfold exec. intros ->. reflexivity. Qed.

Lemma feasible_cons (ev : event) (evs : list event) (x : system) :
  mfeasible (ev :: evs) x = true ->
  exists x', mstep ev x = Some x' /\ mexec ev x = x' /\ mfeasible evs x' = true.
Proof.
  simpl. destruct (mstep ev x) as [x'|] eqn:E; [|discriminate].
  intros H. exists x'. repeat split; auto. apply step_exec, E.
Qed.

Lemma sum_insert (f : thread -> nat) (p : list thread) (i : nat) (t t' : thread) :
  p !! i = Some t ->
  (sum_list_with f (<[i := t']> p) + f t = sum_list_with f p + f t')%nat.
Proof.
  revert i. induction p as [|u p IH]; intros i H; [discriminate|].
  destruct i as [|i]; simpl in *.
  - injection H as ->. lia.
  - specialize (IH i H). lia.
Qed.

(** *** After the stop flag is set *)

(** No lookup starts: the lookups issued from now on are at most the
    lookups already in progress. *)
Lemma queries_after_stop_exec (ev : event) (x : system) :
  stop_event (mem x) = true ->
  (length (queried (trace (mem (mexec ev x)))) + tally at_fetch (pool (mexec ev x))
   <= length (queried (trace (mem x))) + tally at_fetch (pool x))%nat.
Proof.
  intros Hstop.
  destruct (exec_shape ev x)
    as [(i & t & p & s & -> & Hi & Hq & Hw & ->) | (-> & [-> | ->])];
    simpl; try lia.
  pose proof (tally_insert at_fetch (pool x) i t {| job := job t; at_pc := p |} Hi)
    as Hins.
  set (n' := tally at_fetch (<[i:=_]> (pool x))) in *.
  set (n := tally at_fetch (pool x)) in *. clearbody n n'.
  destruct t as [j0 p0].
  wstep_cases Hw; simpl in *; rewrite ?length_app; simpl;
    try congruence; try (destruct j0; simpl in Hins); lia.
Qed.

Lemma queries_after_stop_run (evs : list event) (x : system) :
  stop_event (mem x) = true ->
  (length (queried (trace (mem (mrun evs x)))) + tally at_fetch (pool (mrun evs x))
   <= length (queried (trace (mem x))) + tally at_fetch (pool x))%nat.
Proof.
  revert x. induction evs as [|ev evs IH]; intros x H; simpl; [lia|].
  pose proof (queries_after_stop_exec ev x H).
  pose proof (IH _ (stop_stays_exec ev x H)). lia.
Qed.

(** Every step of a task brings it closer to its end. *)
Lemma drain_step (i : nat) (x x' : system) :
  stop_event (mem x) = true ->
  mstep (Run i) x = Some x' ->
  (sum_list_with steps_left (pool x') < sum_list_with steps_left (pool x))%nat.
Proof.
  intros Hstop Hs.
  destruct (step_run i x x' Hs) as (t & p & s & Hi & Hq & Hw & ->). simpl.
  pose proof (sum_insert steps_left (pool x) i t {| job := job t; at_pc := p |} Hi)
    as Hins.
  set (n' := sum_list_with steps_left (<[i:=_]> (pool x))) in *.
  set (n := sum_list_with steps_left (pool x)) in *. clearbody n n'.
  destruct t as [j0 p0]. unfold steps_left in Hins.
  wstep_cases Hw; simpl in *; try congruence;
    try (destruct j0; simpl in Hins); lia.
Qed.

Lemma drain_other (ev : event) (x x' : system) :
  (forall i, ev <> Run i) ->
  mstep ev x = Some x' -> pool x' = pool x.
Proof.
  intros Hev Hs. apply step_exec in Hs. subst x'.
  destruct (exec_shape ev x) as [(i & t & p & s & -> & _) | (Hp & _)];
    [exfalso; eapply Hev; reflexivity | exact Hp].
Qed.

Lemma drain_bound (evs : list event) (x : system) :
  stop_event (mem x) = true ->
  mfeasible evs x = true ->
  (runs evs + sum_list_with steps_left (pool (mrun evs x))
   <= sum_list_with steps_left (pool x))%nat.
Proof.
  revert x. induction evs as [|ev evs IH]; intros x Hstop Hf; [simpl; lia|].
  destruct (feasible_cons ev evs x Hf) as (x' & Hs & He & Hf').
  assert (stop_event (mem x') = true) as Hstop'
      by (rewrite <- He; apply stop_stays_exec, Hstop).
  specialize (IH x' Hstop' Hf'). cbn [run]. rewrite He.
  assert (forall ev', ev' = ev -> (forall i, ev <> Run i) ->
          (runs (ev' :: evs) + sum_list_with steps_left (pool (mrun evs x'))
           <= sum_list_with steps_left (pool x))%nat) as Hother.
  { intros ev' -> Hev. rewrite <- (drain_other ev x x' Hev Hs).
    destruct ev; cbn [runs]; try exact IH. exfalso. eapply Hev. reflexivity. }
  destruct ev as [i|i| | |];
    try (apply Hother; [reflexivity | intros ? ?; discriminate]).
  pose proof (drain_step i x x' Hstop Hs). cbn [runs]. lia.
Qed.

Lemma steps_left_bound (p : list thread) :
  (sum_list_with steps_left p <= 5 * length p)%nat.
Proof.
  induction p as [|t p IH]; simpl; [lia|].
  assert (steps_left t <= 5)%nat
    by (unfold steps_left; destruct (job t), (at_pc t); simpl; lia).
  lia.
Qed.

(** *** The pool can always move on *)

Lemma unfinished_steps (t : thread) (s : shared) :
  finished t = false -> exists p s', worker_step rs target tlds t s = Some (p, s').
Proof.
  unfold finished, worker_step. intros H.
  destruct (at_pc t) as [| |ds| | | | | | | |]; try discriminate.
  - destruct (job t); eauto.
  - destruct (stop_event s); [eauto|].
    destruct (generate_random_domain tlds (gen s)); eauto.
  - destruct ds; [eauto|]. destruct (stop_event s); eauto.
  - eauto.
  - eauto.
  - destruct (stop_event s); eauto.
  - destruct (fetch_txt_records domain rs); [|eauto].
    destruct (scan target a); eauto.
  - eauto.
  - eauto.
Qed.

Lemma first_queued (p : list thread) :
  forallb finished p = false ->
  tally running p = 0%nat ->
  exists i t, p !! i = Some t /\ queued t = true /\
              forallb (fun u => negb (queued u)) (take i p) = true.
Proof.
  induction p as [|u p IH]; simpl; intros Hfin Hrun; [discriminate|].
  rewrite tally_cons in Hrun.
  destruct (queued u) eqn:Hq.
  - exists 0%nat, u. auto.
  - assert (finished u = true) as Hu.
    { unfold running in Hrun. rewrite Hq in Hrun.
      destruct (finished u); [reflexivity | simpl in Hrun; lia]. }
    rewrite Hu in Hfin. simpl in Hfin.
    destruct IH as (i & t & Hi & Ht & Htake); [exact Hfin | lia |].
    exists (S i), t. simpl. rewrite Hq. auto.
Qed.

Lemma some_running (p : list thread) :
  tally running p <> 0%nat ->
  exists i t, p !! i = Some t /\ running t = true.
Proof.
  induction p as [|u p IH]; [intros H; exfalso; apply H; reflexivity|].
  rewrite tally_cons. intros H.
  destruct (running u) eqn:Hu.
  - exists 0%nat, u. auto.
  - destruct IH as (i & t & Hi & Ht); [simpl in H; lia|].
    exists (S i), t. auto.
Qed.

(** While a task is unfinished, some task of the pool can take a step. *)
Lemma progress (x : system) :
  (0 < workers)%nat -> all_finished x = false ->
  exists i x', mstep (Run i) x = Some x'.
Proof.
  intros Hw Hfin. unfold all_finished in Hfin.
  destruct (decide (tally running (pool x) = 0%nat)) as [Hnone|Hsome].
  - destruct (first_queued (pool x) Hfin Hnone) as (i & t & Hi & Hq & Htake).
    assert (finished t = false) as Hf
        by (unfold queued in Hq; unfold finished; destruct (at_pc t); congruence).
    destruct (unfinished_steps t (mem x) Hf) as (p & s' & Hstep).
    exists i. unfold step. rewrite Hi, Hq. unfold can_start.
    fold (tally running (pool x)). rewrite Hnone, Htake.
    destruct workers; [lia|]. simpl. rewrite Hstep. eauto.
  - destruct (some_running (pool x) Hsome) as (i & t & Hi & Hr).
    unfold running in Hr. apply andb_true_iff in Hr as [Hq Hf].
    apply negb_true_iff in Hq, Hf.
    destruct (unfinished_steps t (mem x) Hf) as (p & s' & Hstep).
    exists i. unfold step. rewrite Hi, Hq. simpl. rewrite Hstep. eauto.
Qed.

Lemma can_drain (n : nat) (x : system) :
  (0 < workers)%nat ->
  stop_event (mem x) = true ->
  (sum_list_with steps_left (pool x) <= n)%nat ->
  exists evs,
    only_runs evs = true /\ mfeasible evs x = true /\
    all_finished (mrun evs x) = true.
Proof.
  intros Hw. revert x. induction n as [|n IH]; intros x Hstop Hn.
  - destruct (all_finished x) eqn:Hfin; [exists []; auto|].
    destruct (progress x Hw Hfin) as (i & x' & Hs).
    pose proof (drain_step i x x' Hstop Hs). lia.
  - destruct (all_finished x) eqn:Hfin; [exists []; auto|].
    destruct (progress x Hw Hfin) as (i & x' & Hs).
    pose proof (drain_step i x x' Hstop Hs) as Hlt.
    assert (stop_event (mem x') = true) as Hstop'
        by (rewrite <- (step_exec _ _ _ Hs); apply stop_stays_exec, Hstop).
    destruct (IH x' Hstop' ltac:(lia)) as (evs & Ho & Hf & Hall).
    exists (Run i :: evs). split; [exact Ho|]. split.
    + cbn [feasible]. rewrite Hs. exact Hf.
    + cbn [run]. rewrite (step_exec _ _ _ Hs). exact Hall.
Qed.

End MachineShape.

(** ** What ends up in the list of matches *)

Section Results.

Context (rs : resolver) (target : str) (tlds : list str).
Context (workers : nat) (args : mode).

Local Abbreviation mexec := (exec rs target tlds workers args).
Local Abbreviation mrun := (run rs target tlds workers args).

(** What one step of a task does to the two lists. *)
Lemma worker_step_lists (t : thread) (s s' : shared) (p : pc) :
  worker_step rs target tlds t s = Some (p, s') ->
  (queried (trace s') = queried (trace s) \/
   exists d r, at_pc t = AtFetch d r /\
               queried (trace s') = queried (trace s) ++ [d]) /\
  (successful_domains s' = successful_domains s \/
   exists d r, (at_pc t = AtAppend d r \/ at_pc t = AtAppendAgain d r) /\
               successful_domains s' = successful_domains s ++ [d]) /\
  (forall d r, p = AtAppend d r ->
               matched rs target d = true /\
               queried (trace s') = queried (trace s) ++ [d]) /\
  (forall d r, p = AtAppendAgain d r -> at_pc t = AtAppend d r).
Proof.
  intros Hw. destruct t as [j0 p0]. unfold worker_step in Hw.
  cbn [at_pc job] in *.
  destruct p0 as [| |ds|d r|v d r|d r|d r|d r|d r|res|e]; try discriminate.
  - destruct j0; injection Hw as <- <-; quiet_step.
  - destruct (stop_event s); [|destruct (generate_random_domain tlds (gen s))];
      injection Hw as <- <-; quiet_step.
  - destruct ds; [|destruct (stop_event s)];
      injection Hw as <- <-; destruct j0; quiet_step.
  - injection Hw as <- <-; quiet_step.
  - injection Hw as <- <-; quiet_step.
  - destruct (stop_event s); injection Hw as <- <-; quiet_step.
  - unfold matched. destruct (fetch_txt_records d rs) as [l|e] eqn:Hf.
    + destruct (scan target l) eqn:Hs; injection Hw as <- <-;
        (split; [right; eauto|]); (split; [left; reflexivity|]);
        (split; [|intros ? ? E; discriminate E]).
      * intros d' r' [= <- <-]. rewrite Hf, Hs. auto.
      * intros ? ? E; discriminate E.
    + injection Hw as <- <-.
      (split; [right; eauto|]); (split; [left; reflexivity|]);
        split; intros ? ? E; discriminate E.
  - injection Hw as <- <-. split; [left; reflexivity|]. split; [right; eauto|].
    split; [intros ? ? E; discriminate E|]. intros d' r' [= <- <-]. reflexivity.
  - injection Hw as <- <-. split; [left; reflexivity|]. split; [right; eauto|].
    split; intros ? ? E; discriminate E.
Qed.

Lemma vouched_exec (ev : event) (x : system) :
  vouched rs target x -> vouched rs target (mexec ev x).
Proof.
  intros [Hm Hp].
  destruct (exec_shape rs target tlds workers args ev x)
    as [(i & t & p & s & -> & Hi & Hq & Hw & ->) | (Hpool & Hmem)].
  - destruct (worker_step_lists t _ _ _ Hw) as (Hqs & Hsd & Hin & Hagain).
    assert (forall d, d ∈ queried (trace (mem x)) -> d ∈ queried (trace s)) as Hgrow.
    { intros d Hd. destruct Hqs as [-> | (d0 & r0 & _ & ->)]; [exact Hd|].
      apply elem_of_app. left. exact Hd. }
    split; simpl.
    + intros d Hd. destruct Hsd as [E | (d0 & r0 & Hat & E)]; rewrite E in Hd.
      * destruct (Hm d Hd) as [H1 H2]. auto.
      * apply elem_of_app in Hd as [Hd | Hd].
        -- destruct (Hm d Hd) as [H1 H2]. auto.
        -- apply list_elem_of_singleton in Hd. subst d0.
           destruct (Hp i t d r0 Hi Hat) as [H1 H2]. auto.
    + intros j tj d r Hj Hat. lookup_new Hj.
      * cbn [at_pc] in Hat. destruct Hat as [Hat | Hat].
        -- destruct (Hin d r Hat) as [H1 H2]. split; [exact H1|].
           rewrite H2. apply elem_of_app. right. apply list_elem_of_singleton.
           reflexivity.
        -- destruct (Hp j t d r Hi (or_introl (Hagain d r Hat))) as [H1 H2]. auto.
      * destruct (Hp j tj d r Hj Hat) as [H1 H2]. auto.
  - unfold vouched. rewrite Hpool.
    destruct Hmem as [-> | ->]; simpl; split; assumption.
Qed.

Lemma vouched_run (evs : list event) (x : system) :
  vouched rs target x -> vouched rs target (mrun evs x).
Proof.
  revert x. induction evs as [|ev evs IH]; intros x H; simpl; [exact H|].
  apply IH, vouched_exec, H.
Qed.

Lemma vouched_boot (g : Random.rng) (now : Z) :
  vouched rs target (boot workers args g now).
Proof.
  split; simpl.
  - intros d Hd. apply elem_of_nil in Hd. contradiction.
  - intros i t d r Hi Hat. apply submitted_queued in Hi.
    destruct Hat; congruence.
Qed.

(** The two lists only grow at their end. *)
Lemma lists_grow_exec (ev : event) (x : system) :
  successful_domains (mem x) `prefix_of` successful_domains (mem (mexec ev x)) /\
  queried (trace (mem x)) `prefix_of` queried (trace (mem (mexec ev x))).
Proof.
  destruct (exec_shape rs target tlds workers args ev x)
    as [(i & t & p & s & -> & Hi & Hq & Hw & ->) | (Hpool & [-> | ->])];
    simpl; try (split; reflexivity).
  destruct (worker_step_lists t _ _ _ Hw) as (Hqs & Hsd & _).
  split.
  - destruct Hsd as [-> | (d & r & _ & ->)]; [reflexivity | apply prefix_app_r; reflexivity].
  - destruct Hqs as [-> | (d & r & _ & ->)]; [reflexivity | apply prefix_app_r; reflexivity].
Qed.

Lemma lists_grow_run (evs : list event) (x : system) :
  successful_domains (mem x) `prefix_of` successful_domains (mem (mrun evs x)) /\
  queried (trace (mem x)) `prefix_of` queried (trace (mem (mrun evs x))).
Proof.
  revert x. induction evs as [|ev evs IH]; intros x; simpl; [split; reflexivity|].
  destruct (lists_grow_exec ev x) as [H1 H2].
  destruct (IH (mexec ev x)) as [H3 H4].
  split; etransitivity; eassumption.
Qed.

End Results.

(** ** The output file *)

Section Persistence.

Context (rs : resolver) (target : str) (tlds : list str).
Context (workers : nat) (args : mode).

Local Abbreviation mexec := (exec rs target tlds workers args).
Local Abbreviation mrun := (run rs target tlds workers args).

Lemma finished_lookup (p : list thread) (i : nat) (t : thread) :
  forallb finished p = true -> p !! i = Some t -> finished t = true.
Proof.
  revert i. induction p as [|u p IH]; intros i H Hi; [discriminate|].
  simpl in H. apply andb_true_iff in H as [Hu Hp].
  destruct i as [|i]; simpl in Hi; [injection Hi as <-; exact Hu | eauto].
Qed.

Lemma finished_stuck (t : thread) (s : shared) :
  finished t = true -> worker_step rs target tlds t s = None.
Proof.
  unfold finished, worker_step. destruct (at_pc t); try discriminate; reflexivity.
Qed.


Lemma sink_file (x : system) :
  file (sink (with_mem (set_stop (mem x)) x)) = written (mem x) (file x).
Proof. reflexivity. Qed.

Lemma persisted_exec (old : option str) (ev : event) (x : system) :
  persisted old x -> persisted old (mexec ev x).
Proof.
  intros H. unfold exec, step.
  destruct ev as [i|i| | |].
  - destruct (pool x !! i) as [t|] eqn:Hi; [|exact H].
    destruct (queued t && negb (can_start workers i (pool x))); [exact H|].
    destruct (worker_step rs target tlds t (mem x)) as [[p s]|] eqn:Hw; [|exact H].
    unfold persisted in *. cbn [main_at file mem pool].
    destruct (main_at x) as [ys| | |]; try exact H.
    destruct H as (Hfin & _).
    rewrite (finished_stuck t (mem x) (finished_lookup _ _ _ Hfin Hi)) in Hw.
    discriminate.
  - unfold persisted in H.
    destruct (main_at x) as [ys| | |] eqn:Hm;
      try (unfold persisted; rewrite Hm; exact H).
    destruct (pool x !! i) as [t|];
      [|unfold persisted; rewrite Hm; exact H].
    destruct (finished t && negb (bool_decide (i ∈ ys)));
      [|unfold persisted; rewrite Hm; exact H].
    unfold loop_body, persisted.
    destruct (stop_event (mem x)); [exact H|].
    destruct args as [time|ws].
    + destruct (time_is_up time (start_time x) (clock x)); exact H.
    + destruct (at_pc t); try exact H.
      destruct (truthy (deref (mem x) results)); exact H.
  - unfold persisted in H.
    destruct (main_at x) as [ys| | |] eqn:Hm;
      try (unfold persisted; rewrite Hm; exact H).
    + destruct (length (pool x) <=? length ys)%nat;
        [exact H | unfold persisted; rewrite Hm; exact H].
    + destruct (forallb finished (pool x)) eqn:Hfin;
        [|unfold persisted; rewrite Hm; exact H].
      unfold persisted. cbn [main_at with_main].
      split; [exact Hfin|]. split; [reflexivity|].
      change (written (mem x) (file x) = written (mem x) old).
      rewrite H. reflexivity.
  - exact H.
  - unfold persisted in H.
    destruct (main_at x) as [ys| | |] eqn:Hm;
      try (unfold persisted; rewrite Hm; exact H);
      unfold persisted; cbn [main_at with_main]; exact I.
Qed.

Lemma persisted_run (old : option str) (evs : list event) (x : system) :
  persisted old x -> persisted old (mrun evs x).
Proof.
  revert x. induction evs as [|ev evs IH]; intros x H; simpl; [exact H|].
  apply IH, persisted_exec, H.
Qed.




End Persistence.

(** ** Properties of the run: cancellation *)

(** X1: Once the stop flag is set it stays set, whatever happens next. *)
Theorem stop_flag_is_one_way
    (rs : resolver) (target : str) (tlds : list str) (workers : nat)
    (args : mode) (evs1 evs2 : list event) (x : system) :
  stop_event (mem (run rs target tlds workers args evs1 x)) = true ->
  stop_event (mem (run rs target tlds workers args (evs1 ++ evs2) x)) = true.
Proof.
  intros H. rewrite run_app. apply stop_stays_run, H.
Qed.

Lemma stop_flag_is_one_way_witness :
  stop_event
    (mem (run Scenario.nothing Scenario.target [str_of ".se"] 1 (Auto None)
            (Cases.stopped_worker ++ Cases.drain)
            (boot 1 (Auto None) Scenario.g0 0))) = true.
Proof.
  apply (stop_flag_is_one_way Scenario.nothing Scenario.target [str_of ".se"] 1
           (Auto None) Cases.stopped_worker Cases.drain).
  reflexivity.
Defined.

(** X2: After the stop flag is set no lookup is started: the lookups issued
    from then on are at most the lookups that were already in progress. *)
Theorem no_new_lookup_after_stop
    (rs : resolver) (target : str) (tlds : list str) (workers : nat)
    (args : mode) (evs : list event) (x : system) :
  stop_event (mem x) = true ->
  (length (queried (trace (mem (run rs target tlds workers args evs x))))
   <= length (queried (trace (mem x))) + tally at_fetch (pool x))%nat.
Proof.
  intros H.
  pose proof (queries_after_stop_run rs target tlds workers args evs x H). lia.
Qed.

Lemma no_new_lookup_after_stop_witness :
  let x := run Scenario.nothing Scenario.target [str_of ".se"] 1 (Auto None)
               Cases.stopped_worker (boot 1 (Auto None) Scenario.g0 0) in
  (length (queried (trace (mem (run Scenario.nothing Scenario.target
                                    [str_of ".se"] 1 (Auto None) Cases.drain x))))
   <= 1 + 0)%nat.
Proof.
  apply (no_new_lookup_after_stop Scenario.nothing Scenario.target [str_of ".se"]
           1 (Auto None) Cases.drain).
  reflexivity.
Defined.

(** X3: After the stop flag is set the tasks take at most five more steps
    each, in every schedule. *)
Theorem drain_is_bounded
    (rs : resolver) (target : str) (tlds : list str) (workers : nat)
    (args : mode) (evs : list event) (x : system) :
  stop_event (mem x) = true ->
  feasible rs target tlds workers args evs x = true ->
  (runs evs <= 5 * length (pool x))%nat.
Proof.
  intros Hstop Hf.
  pose proof (drain_bound rs target tlds workers args evs x Hstop Hf).
  pose proof (steps_left_bound (pool x)). lia.
Qed.

Lemma drain_is_bounded_witness :
  (runs Cases.drain <= 5 * 1)%nat.
Proof.
  apply (drain_is_bounded Scenario.nothing Scenario.target [str_of ".se"] 1
           (Auto None) Cases.drain
           (run Scenario.nothing Scenario.target [str_of ".se"] 1 (Auto None)
              Cases.stopped_worker (boot 1 (Auto None) Scenario.g0 0)));
    reflexivity.
Defined.

(** X4: After the stop flag is set the pool can always be run to the end: some
    schedule of task steps, of at most five steps a task, finishes every
    task. *)
Theorem pool_can_drain
    (rs : resolver) (target : str) (tlds : list str) (workers : nat)
    (args : mode) (x : system) :
  (0 < workers)%nat ->
  stop_event (mem x) = true ->
  exists evs,
    only_runs evs = true /\
    feasible rs target tlds workers args evs x = true /\
    (runs evs <= 5 * length (pool x))%nat /\
    all_finished (run rs target tlds workers args evs x) = true.
Proof.
  intros Hw Hstop.
  destruct (can_drain rs target tlds workers args _ x Hw Hstop (le_n _))
    as (evs & Ho & Hf & Hall).
  exists evs. repeat split; auto.
  pose proof (drain_bound rs target tlds workers args evs x Hstop Hf).
  pose proof (steps_left_bound (pool x)). lia.
Qed.

Lemma pool_can_drain_witness :
  exists evs,
    only_runs evs = true /\
    feasible Scenario.nothing Scenario.target [str_of ".se"] 1 (Auto None) evs
      (run Scenario.nothing Scenario.target [str_of ".se"] 1 (Auto None)
         Cases.stopped_worker (boot 1 (Auto None) Scenario.g0 0)) = true /\
    (runs evs <= 5 * 1)%nat /\
    all_finished
      (run Scenario.nothing Scenario.target [str_of ".se"] 1 (Auto None) evs
         (run Scenario.nothing Scenario.target [str_of ".se"] 1 (Auto None)
            Cases.stopped_worker (boot 1 (Auto None) Scenario.g0 0))) = true.
Proof.
  apply (pool_can_drain Scenario.nothing Scenario.target [str_of ".se"] 1
           (Auto None)
           (run Scenario.nothing Scenario.target [str_of ".se"] 1 (Auto None)
              Cases.stopped_worker (boot 1 (Auto None) Scenario.g0 0))).
  - lia.
  - reflexivity.
Defined.

(** ** Properties of the run: the matches and the file *)

Lemma matched_spec (rs : resolver) (target d : str) :
  matched rs target d = true ->
  exists l txt,
    fetch_txt_records d rs = Ok l /\ txt ∈ l /\ Text.strip txt = target.
Proof.
  unfold matched. destruct (fetch_txt_records d rs) as [l|e]; [|discriminate].
  intros H. exists l.
  induction l as [|txt l IH]; simpl in H; [discriminate|].
  destruct (Text.txt_matches txt target) eqn:E.
  - exists txt. split; [reflexivity|]. split; [left|].
    unfold Text.txt_matches in E. apply bool_decide_eq_true in E. exact E.
  - destruct (IH H) as (txt' & _ & Hin & Hs). exists txt'.
    split; [reflexivity|]. split; [right; exact Hin | exact Hs].
Qed.

(** X5: Every domain in the list of matches was looked up, and its lookup
    returned a value that is the target once stripped. *)
Theorem recorded_domains_carry_target
    (rs : resolver) (target : str) (tlds : list str) (workers : nat)
    (args : mode) (g : Random.rng) (now : Z) (evs : list event) (d : str) :
  let x := run rs target tlds workers args evs (boot workers args g now) in
  d ∈ successful_domains (mem x) ->
  d ∈ queried (trace (mem x)) /\
  exists l txt,
    fetch_txt_records d rs = Ok l /\ txt ∈ l /\ Text.strip txt = target.
Proof.
  intros x Hd.
  destruct (vouched_run rs target tlds workers args evs _
              (vouched_boot rs target workers args g now)) as [Hm _].
  destruct (Hm d Hd) as [H1 H2]. split; [exact H2|].
  apply matched_spec, H1.
Qed.

Lemma recorded_domains_carry_target_witness :
  str_of "acme.se" ∈
    queried (trace (mem (run Scenario.only_acme_se Scenario.target Scenario.tlds 2
                           (WordList Scenario.words) Cases.in_turns
                           (boot 2 (WordList Scenario.words) Scenario.g0 0)))) /\
  exists l txt,
    fetch_txt_records (str_of "acme.se") Scenario.only_acme_se = Ok l /\
    txt ∈ l /\ Text.strip txt = Scenario.target.
Proof.
  apply (recorded_domains_carry_target Scenario.only_acme_se Scenario.target
           Scenario.tlds 2 (WordList Scenario.words) Scenario.g0 0 Cases.in_turns).
  vm_compute. left.
Defined.

(** X6: The list of matches and the list of lookups only grow, at their end:
    what they hold at any time is a prefix of what they hold later. *)
Theorem matches_only_grow
    (rs : resolver) (target : str) (tlds : list str) (workers : nat)
    (args : mode) (evs1 evs2 : list event) (x : system) :
  let x1 := run rs target tlds workers args evs1 x in
  let x2 := run rs target tlds workers args (evs1 ++ evs2) x in
  successful_domains (mem x1) `prefix_of` successful_domains (mem x2) /\
  queried (trace (mem x1)) `prefix_of` queried (trace (mem x2)).
Proof.
  intros x1 x2. unfold x2. rewrite run_app. apply lists_grow_run.
Qed.

(** X7: When [main] returns, every task has finished, the flag is set, and
    the file holds the final list of matches if there is any match; with
    no match the file is as it was before the run, so a file left by an
    earlier run stays in place. *)
Theorem normal_exit_persists_matches
    (rs : resolver) (target : str) (tlds : list str) (workers : nat)
    (args : mode) (evs : list event) (x0 : system) :
  in_progress x0 = true ->
  let x := run rs target tlds workers args evs x0 in
  main_at x = Exited ->
  all_finished x = true /\ stop_event (mem x) = true /\
  file x = match print_final_output (mem x) with
           | Some content => Some content
           | None => file x0
           end.
Proof.
  intros H0 x Hm.
  assert (persisted (file x0) x0) as Hp
      by (unfold persisted; unfold in_progress in H0;
          destruct (main_at x0); try discriminate; reflexivity).
  pose proof (persisted_run rs target tlds workers args (file x0) evs x0 Hp) as H.
  fold x in H. unfold persisted in H. rewrite Hm in H. exact H.
Qed.

Lemma normal_exit_persists_matches_witness :
  let ws := [str_of "a"; str_of "b"] in
  let x := run Scenario.nothing Scenario.target [str_of ".com"] 2 (WordList ws)
               Scenario.serial
               (with_file (Some (str_of "old.se" ++ Scenario.newline))
                  (boot 2 (WordList ws) Scenario.g0 0)) in
  all_finished x = true /\ stop_event (mem x) = true /\
  file x = match print_final_output (mem x) with
           | Some content => Some content
           | None => Some (str_of "old.se" ++ Scenario.newline)
           end.
Proof.
  apply (normal_exit_persists_matches Scenario.nothing Scenario.target
           [str_of ".com"] 2 (WordList [str_of "a"; str_of "b"]) Scenario.serial
           (with_file (Some (str_of "old.se" ++ Scenario.newline))
              (boot 2 (WordList [str_of "a"; str_of "b"]) Scenario.g0 0)));
    reflexivity.
Defined.

(** A run that finds nothing leaves the file of an earlier run as it
    was. *)
Example stale_file_survives :
  let ws := [str_of "a"; str_of "b"] in
  let x := run Scenario.nothing Scenario.target [str_of ".com"] 2 (WordList ws)
               Scenario.serial
               (with_file (Some (str_of "old.se" ++ Scenario.newline))
                  (boot 2 (WordList ws) Scenario.g0 0)) in
  main_at x = Exited /\ successful_domains (mem x) = [] /\
  file x = Some (str_of "old.se" ++ Scenario.newline).
Proof. vm_compute. auto. Qed.



(** Interrupted during the lookup of [acme.se], the run records the match
    and writes no file. *)
Example interrupt_loses_match :
  let x := run Scenario.only_acme_se Scenario.target [str_of ".se"] 1
               (WordList [str_of "acme"]) Cases.interrupted_lookup
               (boot 1 (WordList [str_of "acme"]) Scenario.g0 0) in
  feasible Scenario.only_acme_se Scenario.target [str_of ".se"] 1
    (WordList [str_of "acme"]) Cases.interrupted_lookup
    (boot 1 (WordList [str_of "acme"]) Scenario.g0 0) = true /\
  all_finished x = true /\
  successful_domains (mem x) = [str_of "acme.se"; str_of "acme.se"] /\
  file x = None.
Proof. vm_compute. auto. Qed.

(** A second interrupt, once the pool has drained, writes the matches the
    first one missed. *)
Example second_interrupt_rewrites :
  let x := run Scenario.only_acme_se Scenario.target [str_of ".se"] 1
               (WordList [str_of "acme"]) (Cases.interrupted_lookup ++ [Sigint])
               (boot 1 (WordList [str_of "acme"]) Scenario.g0 0) in
  feasible Scenario.only_acme_se Scenario.target [str_of ".se"] 1
    (WordList [str_of "acme"]) (Cases.interrupted_lookup ++ [Sigint])
    (boot 1 (WordList [str_of "acme"]) Scenario.g0 0) = true /\
  file x = Some (str_of "acme.se" ++ Scenario.newline ++
                 str_of "acme.se" ++ Scenario.newline).
Proof. vm_compute. auto. Qed.


(** ** The steps that look up and append *)

Section Recording.

Context (rs : resolver) (target : str) (tlds : list str).
Context (workers : nat) (args : mode).

Local Abbreviation mexec := (exec rs target tlds workers args).
Local Abbreviation mrun := (run rs target tlds workers args).

Lemma fetch_step (t : thread) (s s' : shared) (p : pc) (d : str) (r : list str) :
  at_pc t = AtFetch d r ->
  worker_step rs target tlds t s = Some (p, s') ->
  queried (trace s') = queried (trace s) ++ [d] /\
  (matched rs target d = true -> p = AtAppend d r).
Proof.
  unfold worker_step, matched. intros ->.
  destruct (fetch_txt_records d rs) as [l|e].
  - destruct (scan target l); intros [= <- <-]; split; auto; discriminate.
  - intros [= <- <-]. split; auto; discriminate.
Qed.

Lemma append_step (t : thread) (s s' : shared) (p : pc) (d : str) (r : list str) :
  at_pc t = AtAppend d r ->
  worker_step rs target tlds t s = Some (p, s') ->
  successful_domains s' = successful_domains s ++ [d].
Proof.
  unfold worker_step. intros ->. intros [= <- <-]. reflexivity.
Qed.

End Recording.

(** ** Word-list mode on the machine *)

Section WordListMode.

Context (rs : resolver) (target : str) (tlds : list str).
Context (workers : nat) (words : list str).

Hypothesis handled : candidates_handled rs words tlds.

Local Abbreviation wexec := (exec rs target tlds workers (WordList words)).
Local Abbreviation wrun := (run rs target tlds workers (WordList words)).

(** Without an interrupt, the main thread sets the flag only when every
    task is done. *)
Lemma quiet_exec (ev : event) (x : system) :
  ev <> Sigint -> (forall i, ev <> Run i) ->
  pool (wexec ev x) = pool x /\
  (mem (wexec ev x) = mem x \/
   mem (wexec ev x) = set_stop (mem x) /\ all_finished x = true).
Proof.
  intros Hsig Hrun. unfold exec, step.
  destruct ev as [i|i| | |]; try congruence.
  - destruct (main_at x) as [ys| | |]; auto.
    destruct (pool x !! i) as [t|]; auto.
    destruct (finished t && negb (bool_decide (i ∈ ys))); auto.
    unfold loop_body. destruct (stop_event (mem x)); [auto|].
    destruct (at_pc t); auto.
    destruct (truthy (deref (mem x) results)); auto.
  - destruct (main_at x) as [ys| | |]; auto.
    + destruct (length (pool x) <=? length ys)%nat; auto.
    + destruct (forallb finished (pool x)) eqn:Hfin; auto.
  - auto.
Qed.

Lemma pending_finished (p : list thread) :
  forallb finished p = true -> sum_list_with (pending tlds) p = 0%nat.
Proof.
  induction p as [|t p IH]; simpl; intros H; [reflexivity|].
  apply andb_true_iff in H as [Ht Hp]. rewrite (IH Hp).
  unfold finished in Ht. unfold pending. destruct (at_pc t); try discriminate;
    reflexivity.
Qed.

Lemma candidate_handled (w c : str) :
  w ∈ words -> c ∈ generate_domains w tlds ->
  exists l, fetch_txt_records c rs = Ok l.
Proof.
  intros Hw Hc. unfold generate_domains in Hc.
  apply list_elem_of_fmap in Hc as (tld & -> & Ht). apply handled; assumption.
Qed.

(** A step of a word task, with the flag clear and its lookups handled:
    the task does not fail, the flag stays clear, no probe is skipped, and
    either its to-do list is unchanged or its head has just been looked
    up. *)
Lemma todo_step (t : thread) (s s' : shared) (p : pc) (w : str) :
  job t = WordTask w -> at_pc t <> AtWhile -> stop_event s = false ->
  (forall c, c ∈ todo tlds t -> exists l, fetch_txt_records c rs = Ok l) ->
  worker_step rs target tlds t s = Some (p, s') ->
  stop_event s' = false /\ skipped (trace s') = skipped (trace s) /\
  failed {| job := job t; at_pc := p |} = false /\ p <> AtWhile /\
  (pending tlds t + increments (trace s) =
   pending tlds {| job := job t; at_pc := p |} + increments (trace s'))%nat /\
  (todo tlds {| job := job t; at_pc := p |} = todo tlds t /\
   queried (trace s') = queried (trace s) \/
   exists d r,
     at_pc t = AtFetch d r /\
     todo tlds t = d :: todo tlds {| job := job t; at_pc := p |} /\
     queried (trace s') = queried (trace s) ++ [d]).
Proof.
  intros Hjob Hnw Hs Hh Hw. destruct t as [j0 p0]. cbn [job at_pc] in *. subst j0.
  unfold worker_step in Hw. cbn [at_pc job] in Hw.
  unfold todo, pending, failed in *. cbn [at_pc job] in *.
  destruct p0 as [| |ds|d r|v d r|d r|d r|d r|d r|res|e];
    try discriminate; try congruence.
  - injection Hw as <- <-. unfold generate_domains. rewrite length_map.
    repeat split; auto; discriminate.
  - destruct ds as [|d ds]; [|rewrite Hs in Hw]; injection Hw as <- <-;
      simpl; repeat split; auto; discriminate.
  - injection Hw as <- <-. simpl. repeat split; auto; discriminate.
  - injection Hw as <- <-. simpl. repeat split; auto; try discriminate; lia.
  - rewrite Hs in Hw. injection Hw as <- <-. simpl.
    repeat split; auto; discriminate.
  - destruct (Hh d ltac:(left)) as [l Hl]. rewrite Hl in Hw.
    destruct (scan target l); injection Hw as <- <-; simpl;
      (split; [exact Hs|]); (split; [reflexivity|]); (split; [reflexivity|]);
      (split; [discriminate|]); (split; [reflexivity|]);
      right; exists d, r; auto.
  - injection Hw as <- <-. simpl. repeat split; auto; discriminate.
  - injection Hw as <- <-. simpl. repeat split; auto; discriminate.
Qed.

Lemma on_course_active (x : system) (i : nat) (t : thread) (p : pc) (s : shared) :
  on_course words tlds x -> pool x !! i = Some t ->
  worker_step rs target tlds t (mem x) = Some (p, s) ->
  stop_event (mem x) = false.
Proof.
  intros ([Hs | Hfin] & _) Hi Hw; [exact Hs|]. exfalso.
  rewrite (finished_stuck rs target tlds t (mem x)
             (finished_lookup _ _ _ Hfin Hi)) in Hw. discriminate.
Qed.

Lemma orderly_todo (x : system) (i : nat) (t : thread) (c : str) :
  orderly rs target words tlds x -> pool x !! i = Some t ->
  c ∈ todo tlds t -> exists l, fetch_txt_records c rs = Ok l.
Proof.
  intros (_ & Hpool & _) Hi Hc.
  destruct (Hpool i t Hi) as (w & done & Hw & _ & Hgen & _).
  apply (candidate_handled w).
  - eapply list_elem_of_lookup_2. exact Hw.
  - rewrite Hgen. apply elem_of_app. right. exact Hc.
Qed.

Lemma steady_exec (ev : event) (x : system) :
  ev <> Sigint ->
  on_course words tlds x -> orderly rs target words tlds x ->
  on_course words tlds (wexec ev x) /\ orderly rs target words tlds (wexec ev x).
Proof.
  intros Hsig Hoc Hor.
  pose proof Hoc as (Hstop & Hskip & Hjobs & Hsum).
  pose proof Hor as (Hlen & Hpool & Hq).
  assert ((exists i, ev = Run i) \/ forall i, ev <> Run i) as [[i ->] | Hother]
      by (destruct ev; eauto; right; intros ? ?; discriminate).
  - destruct (exec_run_cases rs target tlds workers (WordList words) i x)
      as [-> | (t & p & s & Hi & Hw & ->)]; [auto|].
    pose proof (on_course_active x i t p s Hoc Hi Hw) as Hs.
    destruct (Hjobs i t Hi) as (Hword & Hnf & Hnw).
    destruct (Hpool i t Hi) as (w & done & Hwi & Hjob & Hgen & Hsub & Hrec).
    destruct (todo_step t _ _ _ w Hjob Hnw Hs
                (fun c Hc => orderly_todo x i t c Hor Hi Hc) Hw)
      as (H1 & H2 & H3 & H4 & H5 & Hmove).
    destruct (worker_step_lists rs target tlds t _ _ _ Hw) as (Hqs & Hsd & _).
    assert (forall c, c ∈ successful_domains (mem x) -> c ∈ successful_domains s)
      as Hkeep.
    { intros c Hc. destruct Hsd as [-> | (d0 & r0 & _ & ->)]; [exact Hc|].
      apply elem_of_app. left. exact Hc. }
    assert (queried (trace (mem x)) `prefix_of` queried (trace s)) as Hgrow.
    { destruct Hqs as [-> | (d0 & r0 & _ & ->)];
        [reflexivity | apply prefix_app_r; reflexivity]. }
    split.
    + (* on_course *)
      pose proof (sum_insert (pending tlds) (pool x) i t
                    {| job := job t; at_pc := p |} Hi) as Hins.
      unfold on_course. cbn [mem pool].
      split; [left; exact H1|]. split; [congruence|]. split; [|lia].
      intros j tj Hj. lookup_new Hj; [repeat split; assumption|].
      apply (Hjobs _ _ Hj).
    + (* orderly *)
      unfold orderly. cbn [mem pool].
      split; [rewrite length_insert; exact Hlen|]. split.
      * intros j tj Hj. lookup_new Hj.
        -- destruct Hmove as [[Htodo Hsame] | (d & r & Hat & Htodo & Hnew)].
           ++ exists w, done. split; [exact Hwi|]. split; [exact Hjob|].
              split; [rewrite Htodo; exact Hgen|].
              split; [rewrite Hsame; exact Hsub|].
              intros c Hc Hm. destruct (Hrec c Hc Hm) as [Hin | [r Hat]].
              ** left. apply Hkeep, Hin.
              ** left. rewrite (append_step rs target tlds t _ _ _ c r Hat Hw).
                 apply elem_of_app. right. apply list_elem_of_singleton.
                 reflexivity.
           ++ exists w, (done ++ [d]). split; [exact Hwi|]. split; [exact Hjob|].
              split; [rewrite Hgen, Htodo, <- app_assoc; reflexivity|].
              split; [rewrite Hnew; apply sublist_app; [exact Hsub | reflexivity]|].
              intros c Hc Hm. apply elem_of_app in Hc as [Hc | Hc].
              ** destruct (Hrec c Hc Hm) as [Hin | [r' Hat']];
                   [left; apply Hkeep, Hin | congruence].
              ** apply list_elem_of_singleton in Hc. subst c.
                 destruct (fetch_step rs target tlds t _ _ _ d r Hat Hw) as [_ Hp].
                 right. exists r. cbn [at_pc]. exact (Hp Hm).
        -- destruct (Hpool j tj Hj) as (wj & dj & Hwj & Hjobj & Hgenj & Hsubj & Hrecj).
           exists wj, dj. split; [exact Hwj|]. split; [exact Hjobj|].
           split; [exact Hgenj|]. split.
           ++ destruct Hgrow as [k Hk]. rewrite Hk.
              apply sublist_inserts_r, Hsubj.
           ++ intros c Hc Hm. destruct (Hrecj c Hc Hm) as [Hin | Hat];
                [left; apply Hkeep, Hin | right; exact Hat].
      * intros c Hc.
        destruct Hmove as [[_ Hsame] | (d & r & _ & Htodo & Hnew)].
        -- rewrite Hsame in Hc. apply Hq, Hc.
        -- rewrite Hnew in Hc. apply elem_of_app in Hc as [Hc | Hc];
             [apply Hq, Hc|].
           apply list_elem_of_singleton in Hc. subst c.
           exists w. split; [eapply list_elem_of_lookup_2; exact Hwi|].
           rewrite Hgen, Htodo. apply elem_of_app. right. left.
  - destruct (quiet_exec ev x Hsig Hother) as [Hp Hmem].
    unfold on_course, orderly, all_finished. rewrite Hp.
    destruct Hmem as [-> | [-> Hfin]]; [auto|].
    split; [|exact Hor].
    split; [right; exact Hfin|]. split; [exact Hskip|].
    split; [exact Hjobs | exact Hsum].
Qed.

Lemma steady_run (evs : list event) (x : system) :
  no_sigint evs = true ->
  on_course words tlds x -> orderly rs target words tlds x ->
  on_course words tlds (wrun evs x) /\ orderly rs target words tlds (wrun evs x).
Proof.
  revert x. induction evs as [|ev evs IH]; intros x Hev Hoc Hor; simpl; [auto|].
  simpl in Hev. apply andb_true_iff in Hev as [Hev Hevs].
  assert (ev <> Sigint) as Hne by (intros ->; discriminate).
  destruct (steady_exec ev x Hne Hoc Hor) as [Hoc' Hor'].
  apply IH; assumption.
Qed.




End WordListMode.


Lemma on_course_boot (tlds : list str) (workers : nat) (words : list str)
    (g : Random.rng) (now : Z) :
  on_course words tlds (boot workers (WordList words) g now).
Proof.
  unfold on_course, boot, submitted. cbn [mem pool initial stop_event trace].
  split; [left; reflexivity|]. split; [reflexivity|]. split.
  - intros i t Hi. rewrite list_lookup_fmap in Hi.
    destruct (words !! i); simpl in Hi; [|discriminate].
    injection Hi as <-. repeat split; discriminate.
  - simpl. induction words as [|w ws IH]; simpl; [reflexivity|].
    unfold pending at 1. simpl. lia.
Qed.

Lemma orderly_boot (rs : resolver) (target : str) (tlds : list str)
    (workers : nat) (words : list str) (g : Random.rng) (now : Z) :
  orderly rs target words tlds (boot workers (WordList words) g now).
Proof.
  unfold orderly, boot, submitted. cbn [mem pool initial trace queried empty_log].
  split; [apply length_map|]. split.
  - intros i t Hi. rewrite list_lookup_fmap in Hi.
    destruct (words !! i) as [w|] eqn:Hw; simpl in Hi; [|discriminate].
    injection Hi as <-. exists w, []. unfold todo. simpl.
    split; [reflexivity|]. split; [reflexivity|]. split; [reflexivity|].
    split; [constructor|]. intros c Hc. apply elem_of_nil in Hc. contradiction.
  - intros c Hc. apply elem_of_nil in Hc. contradiction.
Qed.

(** ** Word-list runs that are not interrupted *)

Lemma matched_intro (rs : resolver) (target d : str) (l : list str) (txt : str) :
  fetch_txt_records d rs = Ok l -> txt ∈ l -> Text.strip txt = target ->
  matched rs target d = true.
Proof.
  unfold matched. intros -> Hin Hs.
  induction l as [|txt' l IH]; [apply elem_of_nil in Hin; contradiction|].
  simpl. destruct (Text.txt_matches txt' target) eqn:E; [reflexivity|].
  apply elem_of_cons in Hin as [-> | Hin]; [|exact (IH Hin)].
  unfold Text.txt_matches in E. apply bool_decide_eq_false in E. contradiction.
Qed.

Lemma finished_todo (tlds : list str) (t : thread) :
  finished t = true -> todo tlds t = [].
Proof. unfold finished, todo. destruct (at_pc t); try discriminate; reflexivity. Qed.

Lemma candidates_only_handled :
  candidates_handled Cases.candidates_only Scenario.words Scenario.tlds.
Proof.
  intros w tld Hw Ht. unfold Scenario.words in Hw. unfold Scenario.tlds in Ht.
  repeat (apply elem_of_cons in Hw as [-> | Hw]);
    try (apply elem_of_nil in Hw; contradiction);
    repeat (apply elem_of_cons in Ht as [-> | Ht]);
    try (apply elem_of_nil in Ht; contradiction);
    eexists; vm_compute; reflexivity.
Defined.

(** A task that has returned has recorded each of its candidates that
    carries the target. *)
Lemma returned_recorded (rs : resolver) (target : str) (words tlds : list str)
    (x : system) (i : nat) (t : thread) (w tld : str) :
  orderly rs target words tlds x ->
  pool x !! i = Some t -> finished t = true -> words !! i = Some w ->
  tld ∈ tlds -> matched rs target (w ++ tld) = true ->
  w ++ tld ∈ successful_domains (mem x).
Proof.
  intros (_ & Hpool & _) Hi Hfin Hw Ht Hm.
  destruct (Hpool i t Hi) as (w' & done & Hw' & _ & Hgen & _ & Hrec).
  pose proof (eq_trans (eq_sym Hw') Hw) as E. injection E as ->.
  rewrite (finished_todo tlds t Hfin), app_nil_r in Hgen.
  destruct (Hrec (w ++ tld)) as [H | [r Hat]]; [| exact Hm | exact H |].
  - rewrite <- Hgen. unfold generate_domains. apply list_elem_of_fmap.
    exists tld. auto.
  - unfold finished in Hfin. rewrite Hat in Hfin. discriminate.
Qed.

(** X9: A word-list run that is not interrupted, and in which the lookup
    of every candidate (a word of the list followed by a TLD) is handled,
    probes every candidate: when every task has finished, as many lookups
    were issued as there are words times TLDs, none was skipped, and the
    counter shows that number if no two increments overlapped.  Nothing is
    asked of the lookup of any other name. *)
Theorem exhaustive_run_probes_every_candidate
    (rs : resolver) (target : str) (tlds : list str) (workers : nat)
    (words : list str) (g : Random.rng) (now : Z) (evs : list event) :
  candidates_handled rs words tlds ->
  no_sigint evs = true ->
  let x0 := boot workers (WordList words) g now in
  let x := run rs target tlds workers (WordList words) evs x0 in
  all_finished x = true ->
  length (queried (trace (mem x))) = (length words * length tlds)%nat /\
  skipped (trace (mem x)) = 0%nat /\
  (always rs target tlds workers (WordList words) exclusive evs x0 = true ->
   domain_count (mem x) = Z.of_nat (length words * length tlds)).
Proof.
  intros Hrs Hev x0 x Hfin.
  destruct (steady_run rs target tlds workers words Hrs evs x0 Hev
              (on_course_boot tlds workers words g now)
              (orderly_boot rs target tlds workers words g now))
    as [(_ & Hskip & _ & Hsum) _].
  fold x in Hskip, Hsum.
  pose proof (accounted_run rs target tlds workers (WordList words) evs x0
                (accounted_boot _ _ _ _)) as Hacc.
  fold x in Hacc. unfold accounted in Hacc.
  rewrite (pending_finished tlds (pool x) Hfin) in Hsum.
  rewrite (tally_finished in_flight (pool x)) in Hacc; [| | exact Hfin].
  - split; [lia|]. split; [exact Hskip|]. intros Hex.
    destruct (exact_run rs target tlds workers (WordList words) evs x0 Hex
                (exact_boot _ _ _ _)) as [[Hc _] _].
    fold x in Hc. rewrite Hc. f_equal. lia.
  - intros t Ht. unfold in_flight in Ht. unfold finished.
    destruct (at_pc t); congruence.
Qed.

Lemma exhaustive_run_probes_every_candidate_witness :
  (exists e, Cases.candidates_only (str_of "a..com") = Raise (OtherError e)) /\
  let x := run Cases.candidates_only Scenario.target Scenario.tlds 2
               (WordList Scenario.words) Cases.in_turns
               (boot 2 (WordList Scenario.words) Scenario.g0 0) in
  length (queried (trace (mem x))) = (2 * 2)%nat /\
  skipped (trace (mem x)) = 0%nat.
Proof.
  split; [eexists; vm_compute; reflexivity|].
  destruct (exhaustive_run_probes_every_candidate Cases.candidates_only
              Scenario.target Scenario.tlds 2 Scenario.words Scenario.g0 0
              Cases.in_turns candidates_only_handled) as (H1 & H2 & _).
  - reflexivity.
  - reflexivity.
  - split; [exact H1 | exact H2].
Defined.

(** X10: A word-list run that is not interrupted, and in which the lookup
    of every candidate (a word of the list followed by a TLD) is handled,
    records exactly the candidates that carry the target: when every task
    has finished, a domain is in the list of matches if and only if it is
    a word followed by a TLD and its lookup returned a value that is the
    target once stripped.  Nothing is asked of the lookup of any other
    name. *)
Theorem exhaustive_output_is_exact
    (rs : resolver) (target : str) (tlds : list str) (workers : nat)
    (words : list str) (g : Random.rng) (now : Z) (evs : list event) (d : str) :
  candidates_handled rs words tlds ->
  no_sigint evs = true ->
  let x := run rs target tlds workers (WordList words) evs
               (boot workers (WordList words) g now) in
  all_finished x = true ->
  (d ∈ successful_domains (mem x) <->
   (exists w tld, w ∈ words /\ tld ∈ tlds /\ d = w ++ tld) /\
   (exists l txt,
       fetch_txt_records d rs = Ok l /\ txt ∈ l /\ Text.strip txt = target)).
Proof.
  intros Hrs Hev x Hfin.
  destruct (steady_run rs target tlds workers words Hrs evs _ Hev
              (on_course_boot tlds workers words g now)
              (orderly_boot rs target tlds workers words g now))
    as [_ Hor].
  fold x in Hor. pose proof Hor as (Hlen & _ & Hq).
  split.
  - intros Hd.
    destruct (vouched_run rs target tlds workers (WordList words) evs _
                (vouched_boot rs target workers (WordList words) g now))
      as [Hm _].
    destruct (Hm d Hd) as [Hmatch Hquery]. fold x in Hquery.
    split; [|apply matched_spec, Hmatch].
    destruct (Hq d Hquery) as (w & Hw & Hc).
    unfold generate_domains in Hc. apply list_elem_of_fmap in Hc as (tld & -> & Ht).
    exists w, tld. auto.
  - intros [(w & tld & Hw & Ht & ->) (l & txt & Hl & Hin & Hs)].
    pose proof (matched_intro rs target _ l txt Hl Hin Hs) as Hmatch.
    apply list_elem_of_lookup in Hw as [i Hi].
    destruct (lookup_lt_is_Some_2 (pool x) i) as [t Hti];
      [rewrite Hlen; eapply lookup_lt_Some; exact Hi|].
    exact (returned_recorded rs target words tlds x i t w tld Hor Hti
             (finished_lookup _ _ _ Hfin Hti) Hi Ht Hmatch).
Qed.

Lemma exhaustive_output_is_exact_witness :
  let x := run Cases.candidates_only Scenario.target Scenario.tlds 2
               (WordList Scenario.words) Cases.in_turns
               (boot 2 (WordList Scenario.words) Scenario.g0 0) in
  str_of "acme.se" ∈ successful_domains (mem x) <->
  (exists w tld, w ∈ Scenario.words /\ tld ∈ Scenario.tlds /\
                 str_of "acme.se" = w ++ tld) /\
  (exists l txt,
      fetch_txt_records (str_of "acme.se") Cases.candidates_only = Ok l /\
      txt ∈ l /\ Text.strip txt = Scenario.target).
Proof.
  apply (exhaustive_output_is_exact Cases.candidates_only Scenario.target
           Scenario.tlds 2 Scenario.words Scenario.g0 0 Cases.in_turns).
  - exact candidates_only_handled.
  - reflexivity.
  - reflexivity.
Defined.

(** X12: In a word-list run that is not interrupted and in which the
    lookup of every candidate is handled, whatever the other threads do,
    each task goes through the candidates of its own word in the order of
    the TLD list: at every moment the candidates [word ++ tld] split into
    those the task has looked up and those its loop has still to do, the
    former appear in that order among the lookups issued, no probe has
    been skipped, and a task that has finished has returned and has
    looked up all of its candidates, in the order of the TLD list. *)
Theorem word_tasks_probe_in_tld_order
    (rs : resolver) (target : str) (tlds : list str) (workers : nat)
    (words : list str) (g : Random.rng) (now : Z) (evs : list event)
    (i : nat) (t : thread) :
  candidates_handled rs words tlds ->
  no_sigint evs = true ->
  let x := run rs target tlds workers (WordList words) evs
               (boot workers (WordList words) g now) in
  pool x !! i = Some t ->
  exists w done,
    words !! i = Some w /\ job t = WordTask w /\
    map (fun tld => w ++ tld) tlds = done ++ todo tlds t /\
    done `sublist_of` queried (trace (mem x)) /\
    skipped (trace (mem x)) = 0%nat /\
    (finished t = true ->
     at_pc t = Returned SuccessfulDomains /\
     map (fun tld => w ++ tld) tlds `sublist_of` queried (trace (mem x))).
Proof.
  intros Hrs Hev x Hi.
  destruct (steady_run rs target tlds workers words Hrs evs _ Hev
              (on_course_boot tlds workers words g now)
              (orderly_boot rs target tlds workers words g now))
    as [(_ & Hskip & Hjobs & _) (_ & Hpool & _)].
  fold x in Hskip, Hjobs, Hpool.
  destruct (Hpool i t Hi) as (w & done & Hw & Hjob & Hgen & Hsub & _).
  exists w, done. split; [exact Hw|]. split; [exact Hjob|].
  split; [exact Hgen|]. split; [exact Hsub|]. split; [exact Hskip|].
  intros Hfin. split.
  - destruct (Hjobs i t Hi) as (_ & Hnf & _).
    unfold finished in Hfin. unfold failed in Hnf.
    destruct (at_pc t) as [| | | | | | | | |[]|]; try discriminate; reflexivity.
  - change (map (fun tld => w ++ tld) tlds) with (generate_domains w tlds).
    rewrite Hgen, (finished_todo tlds t Hfin), app_nil_r. exact Hsub.
Qed.

Lemma word_tasks_probe_in_tld_order_witness :
  let x := run Cases.candidates_only Scenario.target Scenario.tlds 2
               (WordList Scenario.words) (take 11 Cases.in_turns)
               (boot 2 (WordList Scenario.words) Scenario.g0 0) in
  exists t w done,
    pool x !! 0%nat = Some t /\
    Scenario.words !! 0%nat = Some w /\ job t = WordTask w /\
    map (fun tld => w ++ tld) Scenario.tlds = done ++ todo Scenario.tlds t /\
    done `sublist_of` queried (trace (mem x)) /\
    skipped (trace (mem x)) = 0%nat.
Proof.
  intros x.
  destruct (word_tasks_probe_in_tld_order Cases.candidates_only Scenario.target
              Scenario.tlds 2 Scenario.words Scenario.g0 0
              (take 11 Cases.in_turns) 0
              {| job := WordTask (str_of "acme");
                 at_pc := AtFor [str_of "acme.se"] |}
              candidates_only_handled eq_refl eq_refl)
    as (w & done & H1 & H2 & H3 & H4 & H5 & _).
  eexists _, w, done. split; [reflexivity|]. auto 6.
Defined.



(** On the word list [foo, acme] with two workers, the task of [foo]
    returns while the list of matches is still empty, none of its
    candidates carries the target, and [main], collecting it after the
    task of [acme] has recorded [acme.se], sets [found_any]. *)
Example foo_collected_after_acme :
  let go := run Cases.candidates_only Scenario.target Scenario.tlds 2
                (WordList Cases.foo_then_acme) in
  let start := boot 2 (WordList Cases.foo_then_acme) Scenario.g0 0 in
  own_match Cases.candidates_only Scenario.target Scenario.tlds (str_of "foo")
    = false /\
  pool (go (replicate 12 (Run 0)) start) !! 0%nat =
    Some {| job := WordTask (str_of "foo"); at_pc := Returned SuccessfulDomains |} /\
  successful_domains (mem (go (replicate 12 (Run 0)) start)) = [] /\
  feasible Cases.candidates_only Scenario.target Scenario.tlds 2
    (WordList Cases.foo_then_acme) Cases.foo_first start = true /\
  found_any (go (replicate 12 (Run 0) ++ replicate 14 (Run 1)) start) = false /\
  found_any (go Cases.foo_first start) = true.
Proof. vm_compute. auto 10. Qed.

(** ** Probing, one thread at a time: more properties *)

Lemma scan_true_iff (target : str) (l : list str) :
  scan target l = true <-> exists txt, txt ∈ l /\ Text.strip txt = target.
Proof.
  induction l as [|txt l IH]; simpl.
  - split; [discriminate|]. intros (txt & Hin & _).
    apply elem_of_nil in Hin. contradiction.
  - unfold Text.txt_matches at 1.
    destruct (bool_decide (Text.strip txt = target)) eqn:E.
    + apply bool_decide_eq_true in E. split; [|reflexivity].
      intros _. exists txt. split; [left | exact E].
    + apply bool_decide_eq_false in E. rewrite IH. split.
      * intros (txt' & Hin & Hs). exists txt'. split; [right; exact Hin | exact Hs].
      * intros (txt' & Hin & Hs). apply elem_of_cons in Hin as [-> | Hin];
          [contradiction | eauto].
Qed.

(** X11: [check_txt] answers True exactly when the flag is clear, the lookup
    returns, and one of the returned values is the target once stripped;
    it then appends the domain once, and otherwise leaves the list of
    matches alone. *)
Theorem check_txt_true_iff
    (rs : resolver) (target : str) (domain : str) (s : shared) :
  (fst (check_txt rs target domain s) = Ok true <->
   stop_event s = false /\
   exists l txt,
     fetch_txt_records domain rs = Ok l /\ txt ∈ l /\ Text.strip txt = target) /\
  successful_domains (snd (check_txt rs target domain s)) =
    successful_domains s ++
    match fst (check_txt rs target domain s) with
    | Ok true => [domain]
    | _ => []
    end.
Proof.
  unfold check_txt. destruct (stop_event s).
  - simpl. rewrite app_nil_r. split; [|reflexivity].
    split; [discriminate | intros [? _]; discriminate].
  - destruct (fetch_txt_records domain rs) as [l|e].
    + destruct (scan target l) eqn:E; simpl; rewrite ?app_nil_r;
        (split; [|reflexivity]).
      * split; [|reflexivity]. intros _. split; [reflexivity|].
        apply scan_true_iff in E as (txt & Hin & Hs). eauto.
      * split; [discriminate|]. intros (_ & l' & txt & [= <-] & Hin & Hs).
        assert (scan target l = true) as E' by (apply scan_true_iff; eauto).
        congruence.
    + simpl. rewrite app_nil_r. split; [|reflexivity].
      split; [discriminate|]. intros (_ & l' & txt & Hl & _). discriminate.
Qed.

Lemma for_domains_queries (rs : resolver) (target : str) (ds : list str) (s : shared) :
  stop_event s = false ->
  (forall d, d ∈ ds -> exists l, fetch_txt_records d rs = Ok l) ->
  queried (trace (snd (for_domains rs target ds s))) = queried (trace s) ++ ds /\
  skipped (trace (snd (for_domains rs target ds s))) = skipped (trace s).
Proof.
  revert s. induction ds as [|d ds IH]; intros s Hstop Hrs; simpl.
  - rewrite app_nil_r. auto.
  - rewrite Hstop. unfold check_txt. simpl. rewrite Hstop.
    destruct (Hrs d ltac:(left)) as [l Hl].
    assert (forall d', d' ∈ ds -> exists l', fetch_txt_records d' rs = Ok l') as Hrs'
        by (intros d' Hd'; apply Hrs; right; exact Hd').
    rewrite Hl.
    destruct (scan target l);
      match goal with |- context [for_domains rs target ds ?s1] =>
        destruct (IH s1 Hstop Hrs') as (H1 & H2) end;
      rewrite H1, H2; simpl; rewrite <- app_assoc; auto.
Qed.

(** A word task run from start to end with no other thread in between,
    the flag clear and its lookups handled, looks up its candidates one
    after the other in the order of the TLD list and counts each of
    them. *)
Lemma word_task_alone_in_tld_order
    (rs : resolver) (target : str) (tlds : list str) (word : str) (s : shared) :
  stop_event s = false ->
  (forall d, d ∈ generate_domains word tlds ->
             exists l, fetch_txt_records d rs = Ok l) ->
  let s' := snd (check_domains_from_word rs target tlds word s) in
  queried (trace s') = queried (trace s) ++ map (fun tld => word ++ tld) tlds /\
  skipped (trace s') = skipped (trace s) /\
  domain_count s' = domain_count s + Z.of_nat (length tlds).
Proof.
  intros Hstop Hrs s'. unfold s', check_domains_from_word.
  destruct (for_domains_queries rs target _ s Hstop Hrs) as (H1 & H2).
  destruct (for_domains_appends rs target _ s Hstop Hrs) as (_ & _ & _ & H4).
  destruct (for_domains rs target (generate_domains word tlds) s) as [[u|e] s1];
    simpl in *; rewrite H1, H2, H4; unfold generate_domains;
    rewrite length_map; auto.
Qed.

(** X13: Distinct TLDs give distinct candidates for a word. *)
Theorem generate_domains_distinct (word : str) (tlds : list str) :
  NoDup tlds -> NoDup (generate_domains word tlds).
Proof.
  unfold generate_domains, fmt2. intros H.
  apply NoDup_fmap_2; [|exact H].
  intros t1 t2 E. apply app_inv_head in E. exact E.
Qed.

Lemma generate_domains_distinct_witness :
  NoDup (generate_domains (str_of "acme") Scenario.tlds).
Proof.
  apply generate_domains_distinct. unfold Scenario.tlds.
  apply NoDup_cons. split.
  - intros H. apply list_elem_of_singleton in H. discriminate.
  - apply NoDup_singleton.
Defined.

(** ** The resolver client: more properties *)

Lemma decode_strings_spec (segs : list bytes) (acc l : list str) :
  decode_strings segs acc = Ok l <->
  exists decoded,
    l = acc ++ decoded /\
    Forall2 (fun seg s => Utf8.decode seg = Ok s) segs decoded.
Proof.
  revert acc l. induction segs as [|b segs IH]; intros acc l; simpl.
  - split.
    + intros [= <-]. exists []. rewrite app_nil_r. split; [reflexivity|constructor].
    + intros (decoded & -> & H). inversion H. rewrite app_nil_r. reflexivity.
  - destruct (Utf8.decode b) as [s|e] eqn:E.
    + rewrite IH. split.
      * intros (decoded & -> & H). exists (s :: decoded).
        rewrite <- app_assoc. split; [reflexivity|]. constructor; assumption.
      * intros (decoded & -> & H). inversion H as [|? s' ? decoded' Hb Hrest]; subst.
        rewrite E in Hb. injection Hb as <-. exists decoded'.
        rewrite <- app_assoc. split; [reflexivity | exact Hrest].
    + split; [discriminate|].
      intros (decoded & _ & H). inversion H as [|? s' ? decoded' Hb Hrest]; subst.
      rewrite E in Hb. discriminate.
Qed.

Lemma decode_answers_spec (answers : list rdata) (acc l : list str) :
  decode_answers answers acc = Ok l <->
  exists decoded,
    l = acc ++ decoded /\
    Forall2 (fun seg s => Utf8.decode seg = Ok s)
            (concat (map strings answers)) decoded.
Proof.
  revert acc l. induction answers as [|rd answers IH]; intros acc l; simpl.
  - split.
    + intros [= <-]. exists []. rewrite app_nil_r. split; [reflexivity|constructor].
    + intros (decoded & -> & H). inversion H. rewrite app_nil_r. reflexivity.
  - destruct (decode_strings (strings rd) acc) as [acc'|e] eqn:E.
    + apply decode_strings_spec in E as (d1 & -> & H1). rewrite IH. split.
      * intros (d2 & -> & H2). exists (d1 ++ d2). rewrite <- app_assoc.
        split; [reflexivity|]. apply Forall2_app; assumption.
      * intros (decoded & -> & H).
        apply Forall2_app_inv_l in H as (d1' & d2 & H1' & H2 & ->).
        assert (d1' = d1) as ->.
        { clear -H1 H1'. revert d1' H1'.
          induction H1 as [|b s segs d1 Hb _ IHd]; intros d1' H1';
            inversion H1' as [|? s' ? d1'' Hb' Hrest]; subst; [reflexivity|].
          rewrite Hb in Hb'. injection Hb' as <-. f_equal. apply IHd, Hrest. }
        exists d2. rewrite <- app_assoc. auto.
    + split; [discriminate|]. intros (decoded & -> & H).
      apply Forall2_app_inv_l in H as (d1' & d2 & H1' & H2 & ->).
      assert (decode_strings (strings rd) acc = Ok (acc ++ d1')) as E'
          by (apply decode_strings_spec; eauto).
      congruence.
Qed.

Lemma fetch_decoded_iff
    (domain : str) (rs : resolver) (answers : list rdata) (l : list str) :
  rs domain = Ok answers ->
  (fetch_txt_records domain rs = Ok l <->
   Forall2 (fun seg s => Utf8.decode seg = Ok s)
           (concat (map strings answers)) l).
Proof.
  intros Hrs. unfold fetch_txt_records. rewrite Hrs.
  destruct (decode_answers answers []) as [l'|e] eqn:E.
  - apply decode_answers_spec in E as (decoded & -> & H). simpl. split.
    + intros [= <-]. exact H.
    + intros H'. f_equal. clear -H H'. revert l H'.
      induction H as [|b s segs d Hb _ IHd]; intros l H';
        inversion H' as [|? s' ? d' Hb' Hrest]; subst; [reflexivity|].
      rewrite Hb in Hb'. injection Hb' as <-. f_equal. apply IHd, Hrest.
  - pose proof (decode_answers_raises _ _ _ E) as ->. simpl.
    split; [discriminate|]. intros H.
    assert (decode_answers answers [] = Ok ([] ++ l)) as E'
        by (apply decode_answers_spec; eauto).
    congruence.
Qed.

(** X14: When the lookup returns, [fetch_txt_records] returns a list exactly
    when every character-string of the answer decodes, and the list is
    then the decoded character-strings, record after record and, within a
    record, in the order of the record. *)
Theorem fetch_returns_decoded_segments
    (domain : str) (rs : resolver) (answers : list rdata) (l : list str) :
  rs domain = Ok answers ->
  (fetch_txt_records domain rs = Ok l <->
   Forall2 (fun seg s => Utf8.decode seg = Ok s)
           (concat (map strings answers)) l).
Proof. apply fetch_decoded_iff. Qed.

Lemma fetch_returns_decoded_segments_witness :
  fetch_txt_records (str_of "acme.se")
    (fun _ => Ok [ {| strings := [bytes_of "v=spf1 "; bytes_of "~all"] |};
                   {| strings := [bytes_of "x"] |} ])
  = Ok [str_of "v=spf1 "; str_of "~all"; str_of "x"] <->
  Forall2 (fun seg s => Utf8.decode seg = Ok s)
    [bytes_of "v=spf1 "; bytes_of "~all"; bytes_of "x"]
    [str_of "v=spf1 "; str_of "~all"; str_of "x"].
Proof.
  exact (fetch_returns_decoded_segments (str_of "acme.se")
           (fun _ => Ok [ {| strings := [bytes_of "v=spf1 "; bytes_of "~all"] |};
                          {| strings := [bytes_of "x"] |} ])
           [ {| strings := [bytes_of "v=spf1 "; bytes_of "~all"] |};
             {| strings := [bytes_of "x"] |} ]
           [str_of "v=spf1 "; str_of "~all"; str_of "x"] eq_refl).
Defined.

(** X15: [fetch_txt_records] never raises one of the four exceptions its
    [except] clause names, and what it raises is what the lookup raised or
    a decoding error. *)
Theorem fetch_raises_only_unhandled (domain : str) (rs : resolver) (e : exn) :
  fetch_txt_records domain rs = Raise e ->
  e <> NoAnswer /\ e <> NXDOMAIN /\ e <> Timeout /\ e <> NoNameservers /\
  (rs domain = Raise e \/
   e = UnicodeDecodeError /\ exists answers, rs domain = Ok answers).
Proof.
  unfold fetch_txt_records.
  destruct (rs domain) as [answers|e'].
  - destruct (decode_answers answers []) as [l|e''] eqn:E; [discriminate|].
    pose proof (decode_answers_raises _ _ _ E) as ->. simpl.
    intros [= <-]. repeat split; try discriminate. right. eauto.
  - destruct (caught e') eqn:C; [discriminate|].
    intros [= <-]. destruct e'; simpl in C; try discriminate;
      repeat split; try discriminate; auto.
Qed.

Lemma fetch_raises_only_unhandled_witness :
  OtherError "dns.name.EmptyLabel" <> NoAnswer /\
  OtherError "dns.name.EmptyLabel" <> NXDOMAIN /\
  OtherError "dns.name.EmptyLabel" <> Timeout /\
  OtherError "dns.name.EmptyLabel" <> NoNameservers /\
  ((fun _ : str => @Raise (list rdata) (OtherError "dns.name.EmptyLabel"))
     (str_of "a..com") = Raise (OtherError "dns.name.EmptyLabel") \/
   OtherError "dns.name.EmptyLabel" = UnicodeDecodeError /\
   exists answers,
     (fun _ : str => @Raise (list rdata) (OtherError "dns.name.EmptyLabel"))
       (str_of "a..com") = Ok answers).
Proof.
  apply (fetch_raises_only_unhandled (str_of "a..com")
           (fun _ => Raise (OtherError "dns.name.EmptyLabel"))).
  reflexivity.
Defined.

(** Bytes below 128 decode to themselves. *)
Lemma decode_fuel_ascii (n : nat) (bs : bytes) :
  (length bs <= n)%nat ->
  forallb (fun b => Utf8.val b <? 0x80) bs = true ->
  Utf8.decode_fuel n bs = Ok (map Utf8.val bs).
Proof.
  revert bs. induction n as [|n IH]; intros bs Hn Hb;
    destruct bs as [|b bs]; simpl in *; try reflexivity; try lia.
  apply andb_true_iff in Hb as [Hb Hbs]. rewrite Hb.
  rewrite IH by (try lia; assumption). reflexivity.
Qed.

(** X16: A TXT value made of ASCII bytes is returned character for character:
    an answer whose character-strings are all ASCII never fails to decode,
    and every returned string has the code points of its bytes. *)
Theorem fetch_ascii_answer
    (domain : str) (rs : resolver) (answers : list rdata) :
  rs domain = Ok answers ->
  Forall (fun seg => forallb (fun b => Utf8.val b <? 0x80) seg = true)
         (concat (map strings answers)) ->
  fetch_txt_records domain rs =
    Ok (map (map Utf8.val) (concat (map strings answers))).
Proof.
  intros Hrs Hascii.
  apply (fetch_decoded_iff domain rs answers _ Hrs).
  induction Hascii as [|seg segs Hseg _ IH]; simpl; constructor; [|exact IH].
  unfold Utf8.decode. apply decode_fuel_ascii; [lia | exact Hseg].
Qed.

Lemma fetch_ascii_answer_witness :
  fetch_txt_records (str_of "acme.se") Scenario.only_acme_se =
    Ok [str_of "v=spf1 include:_custspf.one.com ~all"].
Proof.
  apply (fetch_ascii_answer (str_of "acme.se") Scenario.only_acme_se
           [Scenario.txt "v=spf1 include:_custspf.one.com ~all"] eq_refl).
  repeat constructor.
Defined.

(** ** The output file and the TLD option *)

Lemma lines_go_line (line d rest : str) :
  10 ∉ d ->
  lines_go line (d ++ [10] ++ rest) = (line ++ d) :: lines_go [] rest.
Proof.
  revert line. induction d as [|c d IH]; intros line Hd; simpl.
  - rewrite app_nil_r. reflexivity.
  - apply not_elem_of_cons in Hd as [Hc Hd].
    destruct (c =? 10) eqn:E; [apply Z.eqb_eq in E; congruence|].
    rewrite IH by exact Hd. rewrite <- app_assoc. reflexivity.
Qed.

Lemma lines_of_written (matches : list str) :
  Forall (fun d => 10 ∉ d) matches ->
  lines_of (concat (map (fun d => d ++ [10]) matches)) = matches.
Proof.
  unfold lines_of. induction 1 as [|d ds Hd _ IH]; simpl; [reflexivity|].
  rewrite <- app_assoc. rewrite (lines_go_line [] d _ Hd). simpl.
  rewrite IH. reflexivity.
Qed.

(** X17: [print_final_output] writes no file when there is no match, and
    otherwise a file whose lines, read back, are the list of matches in
    order, provided no domain contains a line feed. *)
Theorem output_file_lists_matches (s : shared) :
  Forall (fun d => 10 ∉ d) (successful_domains s) ->
  match print_final_output s with
  | Some content =>
    successful_domains s <> [] /\ lines_of content = successful_domains s
  | None => successful_domains s = []
  end.
Proof.
  intros H. unfold print_final_output.
  destruct (successful_domains s) as [|d ds] eqn:E; simpl; [reflexivity|].
  split; [discriminate|].
  change (lines_of (concat (map (fun d0 => d0 ++ [10]) (d :: ds))) = d :: ds).
  apply lines_of_written, H.
Qed.

Lemma output_file_lists_matches_witness :
  match print_final_output
          (fst (main_list Scenario.only_acme_se Scenario.target Scenario.tlds
                  Scenario.words Scenario.g0)) with
  | Some content =>
    successful_domains
      (fst (main_list Scenario.only_acme_se Scenario.target Scenario.tlds
              Scenario.words Scenario.g0)) <> [] /\
    lines_of content =
    successful_domains
      (fst (main_list Scenario.only_acme_se Scenario.target Scenario.tlds
              Scenario.words Scenario.g0))
  | None =>
    successful_domains
      (fst (main_list Scenario.only_acme_se Scenario.target Scenario.tlds
              Scenario.words Scenario.g0)) = []
  end.
Proof.
  apply (output_file_lists_matches
           (fst (main_list Scenario.only_acme_se Scenario.target Scenario.tlds
                   Scenario.words Scenario.g0))).
  vm_compute. repeat constructor;
    intros H; repeat (apply elem_of_cons in H as [H | H]; [discriminate|]);
    apply elem_of_nil in H; exact H.
Defined.

Lemma split_go_nonempty (sep : Z) (piece s : str) : split_go sep piece s <> [].
Proof.
  revert piece. induction s as [|c s IH]; intros piece; simpl; [discriminate|].
  destruct (c =? sep); [discriminate | apply IH].
Qed.

Lemma split_go_join (sep : Z) (piece s : str) :
  join [sep] (split_go sep piece s) = piece ++ s.
Proof.
  revert piece. induction s as [|c s IH]; intros piece; simpl.
  - rewrite app_nil_r. reflexivity.
  - destruct (c =? sep) eqn:E.
    + apply Z.eqb_eq in E. subst c. specialize (IH []).
      destruct (split_go sep [] s) as [|p ps] eqn:Es;
        [exfalso; eapply split_go_nonempty; exact Es|].
      change (join [sep] (piece :: p :: ps))
        with (piece ++ [sep] ++ join [sep] (p :: ps)).
      rewrite IH. reflexivity.
    + rewrite IH, <- app_assoc. reflexivity.
Qed.

Lemma split_go_pieces (sep : Z) (piece s : str) :
  sep ∉ piece -> Forall (fun p => sep ∉ p) (split_go sep piece s).
Proof.
  revert piece. induction s as [|c s IH]; intros piece Hp; simpl.
  - constructor; [exact Hp | constructor].
  - destruct (c =? sep) eqn:E.
    + constructor; [exact Hp|]. apply IH. apply not_elem_of_nil.
    + apply IH. intros H. apply elem_of_app in H as [H | H]; [auto|].
      apply list_elem_of_singleton in H. apply Z.eqb_neq in E. congruence.
Qed.

Lemma split_go_length (sep : Z) (piece s : str) :
  length (split_go sep piece s) = S (length (filter (fun c => c = sep) s)).
Proof.
  revert piece. induction s as [|c s IH]; intros piece; [reflexivity|].
  cbn [split_go].
  change (filter (fun c0 : Z => c0 = sep) (c :: s))
    with (if decide (c = sep) then c :: filter (fun c0 : Z => c0 = sep) s
          else filter (fun c0 : Z => c0 = sep) s).
  destruct (decide (c = sep)) as [-> | Hne].
  - rewrite Z.eqb_refl. simpl. rewrite IH. reflexivity.
  - apply Z.eqb_neq in Hne. rewrite Hne. apply IH.
Qed.

(** X18: The TLD list is never empty.  Without the option, or with an empty
    one, it is the default list; otherwise it has one entry per comma plus
    one, no entry contains a comma, and the entries joined by commas are
    the option as given: nothing is trimmed and empty entries are kept. *)
Theorem select_tlds_spec (arg : option str) :
  select_tlds arg <> [] /\
  (arg = None \/ arg = Some [] -> select_tlds arg = default_tlds) /\
  (forall s, arg = Some s -> s <> [] ->
     join [comma] (select_tlds arg) = s /\
     Forall (fun tld => comma ∉ tld) (select_tlds arg) /\
     length (select_tlds arg) = S (length (filter (fun c => c = comma) s))).
Proof.
  split; [|split].
  - destruct arg as [[|c s]|]; simpl; try discriminate.
    apply split_go_nonempty.
  - intros [-> | ->]; reflexivity.
  - intros s -> Hs. destruct s as [|c s]; [contradiction|].
    unfold select_tlds, split. split; [apply (split_go_join comma [])|].
    split; [apply split_go_pieces, not_elem_of_nil | apply split_go_length].
Qed.

Lemma select_tlds_spec_witness :
  select_tlds (Some (str_of ".co.uk,.com")) <> [] /\
  join [comma] (select_tlds (Some (str_of ".co.uk,.com"))) = str_of ".co.uk,.com" /\
  length (select_tlds (Some (str_of ".co.uk,.com"))) = 2%nat.
Proof.
  destruct (select_tlds_spec (Some (str_of ".co.uk,.com"))) as (H1 & _ & H3).
  destruct (H3 (str_of ".co.uk,.com") eq_refl ltac:(discriminate)) as (H4 & _ & H5).
  split; [exact H1|]. split; [exact H4 | exact H5].
Defined.

Example select_tlds_keeps_spaces_and_empties :
  select_tlds (Some (str_of ".com, .se,")) = [str_of ".com"; str_of " .se"; []].
Proof. reflexivity. Qed.

(** ** The record extractor *)

Lemma split_go_free (sep : Z) (piece a rest : str) :
  sep ∉ a -> split_go sep piece (a ++ rest) = split_go sep (piece ++ a) rest.
Proof.
  revert piece. induction a as [|c a IH]; intros piece Ha; simpl.
  - rewrite app_nil_r. reflexivity.
  - apply not_elem_of_cons in Ha as [Hc Ha].
    destruct (c =? sep) eqn:E; [apply Z.eqb_eq in E; congruence|].
    rewrite IH by exact Ha. rewrite <- app_assoc. reflexivity.
Qed.

Lemma split_two (sep : Z) (a b : str) :
  sep ∉ a -> sep ∉ b -> split sep (a ++ [sep] ++ b) = [a; b].
Proof.
  intros Ha Hb. unfold split. rewrite split_go_free by exact Ha. simpl.
  rewrite Z.eqb_refl. f_equal.
  rewrite <- (app_nil_r b) at 1. rewrite split_go_free by exact Hb. reflexivity.
Qed.

Lemma join_snoc2 (sep : str) (front : list str) (a b : str) :
  join sep (front ++ [a; b]) =
  match front with
  | [] => a ++ sep ++ b
  | _ => join sep front ++ sep ++ a ++ sep ++ b
  end.
Proof.
  induction front as [|p front IH]; [reflexivity|].
  change (join sep ((p :: front) ++ [a; b]))
    with (join sep (p :: (front ++ [a; b]))).
  destruct front as [|q front].
  - reflexivity.
  - change (join sep (p :: (q :: front) ++ [a; b]))
      with (p ++ sep ++ join sep ((q :: front) ++ [a; b])).
    rewrite IH.
    change (join sep (p :: q :: front)) with (p ++ sep ++ join sep (q :: front)).
    rewrite <- !app_assoc. reflexivity.
Qed.

Lemma last_two (parts : list str) :
  (2 <= length parts)%nat ->
  exists front a b,
    parts = front ++ [a; b] /\ drop (length parts - 2) parts = [a; b].
Proof.
  intros H. exists (take (length parts - 2) parts).
  destruct (drop (length parts - 2) parts) as [|a [|b [|c rest]]] eqn:E.
  - apply (f_equal length) in E. rewrite length_drop in E. simpl in E. lia.
  - apply (f_equal length) in E. rewrite length_drop in E. simpl in E. lia.
  - exists a, b. split; [|reflexivity]. rewrite <- E. symmetry. apply take_drop.
  - apply (f_equal length) in E. rewrite length_drop in E. simpl in E. lia.
Qed.

(** X19: [get_base_domain] leaves an entry without a dot as it is; an entry
    with a dot is cut down to its last two dot-separated parts: the result
    is [a.b] where [b] is what follows the last dot of the entry and [a]
    is what lies between the dot before that, or the start of the entry
    if there is none, and the last dot; and applying it twice changes
    nothing more. *)
Theorem get_base_domain_spec (entry : str) :
  (dot ∉ entry -> get_base_domain entry = entry) /\
  (dot ∈ entry ->
   exists a b,
     (dot ∉ a) /\ (dot ∉ b) /\
     (entry = a ++ [dot] ++ b \/
      exists front, entry = front ++ [dot] ++ a ++ [dot] ++ b) /\
     get_base_domain entry = a ++ [dot] ++ b) /\
  get_base_domain (get_base_domain entry) = get_base_domain entry.
Proof.
  assert (dot ∈ entry ->
          exists a b,
            (dot ∉ a) /\ (dot ∉ b) /\
            (entry = a ++ [dot] ++ b \/
             exists front, entry = front ++ [dot] ++ a ++ [dot] ++ b) /\
            get_base_domain entry = a ++ [dot] ++ b) as Hdot.
  { intros Hin. unfold get_base_domain.
    pose proof (split_go_length dot [] entry) as Hlen. fold (split dot entry) in Hlen.
    pose proof (split_go_pieces dot [] entry (not_elem_of_nil dot)) as Hfree.
    fold (split dot entry) in Hfree.
    pose proof (split_go_join dot [] entry) as Hjoin.
    fold (split dot entry) in Hjoin. simpl in Hjoin.
    assert (2 <= length (split dot entry))%nat as H2.
    { rewrite Hlen.
      destruct (filter (fun c => c = dot) entry) as [|c cs] eqn:E; [|simpl; lia].
      exfalso. assert (dot ∈ filter (fun c => c = dot) entry) as H
          by (apply list_elem_of_filter; auto).
      rewrite E in H. apply elem_of_nil in H. exact H. }
    destruct (last_two _ H2) as (front & a & b & Hparts & Hdrop).
    rewrite Hdrop. apply Nat.leb_le in H2. rewrite H2.
    rewrite Hparts in Hfree, Hjoin.
    apply Forall_app in Hfree as [_ Hab].
    apply Forall_cons in Hab as [Ha Hb']. apply Forall_cons in Hb' as [Hb _].
    rewrite join_snoc2 in Hjoin.
    exists a, b. split; [exact Ha|]. split; [exact Hb|]. split; [|reflexivity].
    destruct front as [|p front].
    - left. first [exact Hjoin | symmetry; exact Hjoin].
    - right. exists (join [dot] (p :: front)).
      first [exact Hjoin | symmetry; exact Hjoin]. }
  assert (dot ∉ entry -> get_base_domain entry = entry) as Hnodot.
  { intros Hnot. unfold get_base_domain.
    rewrite <- (app_nil_r entry) at 1. unfold split.
    rewrite split_go_free by exact Hnot. reflexivity. }
  split; [exact Hnodot|]. split; [exact Hdot|].
  destruct (decide (dot ∈ entry)) as [Hin | Hnot].
  - destruct (Hdot Hin) as (a & b & Ha & Hb & _ & ->).
    unfold get_base_domain. rewrite (split_two dot a b Ha Hb). reflexivity.
  - rewrite !(Hnodot Hnot). reflexivity.
Qed.

Lemma get_base_domain_spec_witness :
  get_base_domain (get_base_domain (str_of "spf.protection.outlook.com")) =
  get_base_domain (str_of "spf.protection.outlook.com") /\
  get_base_domain (str_of "localhost") = str_of "localhost" /\
  exists a b,
    (dot ∉ a) /\ (dot ∉ b) /\
    (str_of "spf.protection.outlook.com" = a ++ [dot] ++ b \/
     exists front,
       str_of "spf.protection.outlook.com" = front ++ [dot] ++ a ++ [dot] ++ b) /\
    get_base_domain (str_of "spf.protection.outlook.com") = a ++ [dot] ++ b.
Proof.
  split; [|split].
  - apply (get_base_domain_spec (str_of "spf.protection.outlook.com")).
  - destruct (get_base_domain_spec (str_of "localhost")) as (H & _ & _).
    apply H. intros Hin. vm_compute in Hin.
    repeat (apply elem_of_cons in Hin as [Hin | Hin]; [discriminate|]).
    apply elem_of_nil in Hin. exact Hin.
  - destruct (get_base_domain_spec (str_of "spf.protection.outlook.com"))
      as (_ & H & _).
    apply H. apply (bool_decide_unpack _). vm_compute. exact I.
Defined.

Example get_base_domain_examples :
  get_base_domain (str_of "_spf.createsend.com") = str_of "createsend.com" /\
  get_base_domain (str_of "spf.protection.outlook.com") = str_of "outlook.com" /\
  get_base_domain (str_of "localhost") = str_of "localhost".
Proof. repeat split; reflexivity. Qed.

Lemma startswith_prefix (prefix s : str) :
  startswith prefix s = true <-> exists rest, s = prefix ++ rest.
Proof.
  revert s. induction prefix as [|p prefix IH]; intros s; simpl.
  - split; [eauto | reflexivity].
  - destruct s as [|c s].
    + split; [discriminate | intros (rest & H); discriminate].
    + rewrite andb_true_iff, IH, Z.eqb_eq. split.
      * intros [-> (rest & ->)]. eauto.
      * intros (rest & [= -> ->]). eauto.
Qed.

Lemma decode_parts_spec (segs : list bytes) (parts : list str) :
  decode_parts segs = Ok parts <->
  Forall2 (fun seg s => Utf8.decode seg = Ok s) segs parts.
Proof.
  revert parts. induction segs as [|b segs IH]; intros parts; simpl.
  - split; [intros [= <-]; constructor | intros H; inversion H; reflexivity].
  - destruct (Utf8.decode b) as [s|e] eqn:E.
    + destruct (decode_parts segs) as [rest|e] eqn:E'.
      * split.
        -- intros [= <-]. constructor; [exact E | apply IH; reflexivity].
        -- intros H. inversion H as [|? s' ? rest' Hb Hrest]; subst.
           rewrite E in Hb. injection Hb as <-.
           apply IH in Hrest. injection Hrest as <-. reflexivity.
      * split; [discriminate|].
        intros H. inversion H as [|? s' ? rest' Hb Hrest]; subst.
        apply IH in Hrest. discriminate.
    + split; [discriminate|].
      intros H. inversion H as [|? s' ? rest' Hb Hrest]; subst.
      rewrite E in Hb. discriminate.
Qed.

(** X20: What [get_spf_record] returns is one whole record: the decoded
    character-strings of a record of the answer joined together, starting
    with [v=spf1], and no earlier record of the answer is such a record. *)
Theorem get_spf_record_joins_segments
    (domain : str) (rs : resolver) (txt : str) :
  get_spf_record domain rs = Some txt ->
  exists answers before rd after parts,
    rs domain = Ok answers /\ answers = before ++ rd :: after /\
    Forall2 (fun seg s => Utf8.decode seg = Ok s) (strings rd) parts /\
    txt = concat parts /\
    (exists rest, txt = str_of "v=spf1" ++ rest) /\
    Forall (fun rd' => exists parts',
                decode_parts (strings rd') = Ok parts' /\
                startswith (str_of "v=spf1") (concat parts') = false) before.
Proof.
  unfold get_spf_record. destruct (rs domain) as [answers|e]; [|discriminate].
  intros H. exists answers.
  assert (first_spf answers = Ok (Some txt)) as Hfirst
      by (destruct (first_spf answers) as [[t|]|]; congruence).
  clear H. induction answers as [|rd0 answers IH]; cbn [first_spf] in Hfirst;
    [discriminate|].
  destruct (decode_parts (strings rd0)) as [parts0|e] eqn:E; [|discriminate].
  cbv zeta in Hfirst.
  destruct (startswith (str_of "v=spf1") (concat parts0)) eqn:Es.
  - injection Hfirst as <-. exists [], rd0, answers, parts0.
    split; [reflexivity|]. split; [reflexivity|].
    split; [apply decode_parts_spec, E|]. split; [reflexivity|].
    split; [apply startswith_prefix, Es | constructor].
  - destruct (IH Hfirst) as (before & rd & after & parts & _ & -> & H1 & H2 & H3 & H4).
    exists (rd0 :: before), rd, after, parts.
    split; [reflexivity|]. split; [reflexivity|]. split; [exact H1|].
    split; [exact H2|]. split; [exact H3|]. constructor; [eauto | exact H4].
Qed.

Lemma get_spf_record_joins_segments_witness :
  exists answers before rd after parts,
    (fun _ : str => Ok [ {| strings := [bytes_of "google-site"] |};
                         {| strings := [bytes_of "v=spf1 "; bytes_of "~all"] |} ])
      (str_of "acme.se") = Ok answers /\
    answers = before ++ rd :: after /\
    Forall2 (fun seg s => Utf8.decode seg = Ok s) (strings rd) parts /\
    str_of "v=spf1 ~all" = concat parts /\
    (exists rest, str_of "v=spf1 ~all" = str_of "v=spf1" ++ rest) /\
    Forall (fun rd' => exists parts',
                decode_parts (strings rd') = Ok parts' /\
                startswith (str_of "v=spf1") (concat parts') = false) before.
Proof.
  apply (get_spf_record_joins_segments (str_of "acme.se")
           (fun _ => Ok [ {| strings := [bytes_of "google-site"] |};
                          {| strings := [bytes_of "v=spf1 "; bytes_of "~all"] |} ])
           (str_of "v=spf1 ~all")).
  reflexivity.
Defined.

(** On the record of two character-strings that [fetch_txt_records]
    splits, [get_spf_record] returns the one joined value. *)
Example get_spf_record_on_two_segments :
  get_spf_record (str_of "acme.se")
    (fun _ => Ok [ {| strings := [bytes_of "v=spf1 "; bytes_of "~all"] |} ])
  = Some (str_of "v=spf1 ~all").
Proof. reflexivity. Qed.
